(** * Enum/string association: a shallow embedding of [enum.h] and of the
      alternate header (namespace [enum_strings]), with the properties of
      the conversion routines.

    Integers of a fixed width are values of [Z] with the conversion
    ([static_cast]) written out; strings are [String.string]; a
    [std::array] or [std::vector] of strings is a [list string]; a built-in
    array [T (&a)[N]] is a [c_array].  An out-of-bounds [operator[]] has no
    defined behaviour in the source and is the outcome [Undefined].  The
    function-local static of the alternate header and the stream of
    [operator>>] are passed explicitly. *)

From Stdlib Require Import ZArith String Ascii List Bool Lia DecimalString.
From Equations Require Import Equations.
Import ListNotations.

Open Scope Z_scope.

(* ===================================================================== *)
(** ** Integer types and conversions *)
(* ===================================================================== *)

(** The integral types an enumeration can have as its underlying type
    ([std::underlying_type_t<E>]): [bool], or an unsigned or signed integer
    of [bits] bits. *)
Inductive int_type : Type :=
| t_bool
| t_unsigned (bits : positive)
| t_signed (bits : positive).

Definition min_value (T : int_type) : Z :=
  match T with
  | t_bool => 0
  | t_unsigned _ => 0
  | t_signed w => - 2 ^ (Z.pos w - 1)
  end.

Definition max_value (T : int_type) : Z :=
  match T with
  | t_bool => 1
  | t_unsigned w => 2 ^ Z.pos w - 1
  | t_signed w => 2 ^ (Z.pos w - 1) - 1
  end.

Definition in_range (T : int_type) (z : Z) : Prop :=
  min_value T <= z <= max_value T.

(** [static_cast<T>(z)] for an integral source value [z]: conversion to
    [bool] maps every non-zero value to [true]; conversion to an integer
    type of [w] bits keeps the value modulo [2^w]. *)
Definition static_cast (T : int_type) (z : Z) : Z :=
  match T with
  | t_bool => if z =? 0 then 0 else 1
  | t_unsigned w => z mod 2 ^ Z.pos w
  | t_signed w => (z + 2 ^ (Z.pos w - 1)) mod 2 ^ Z.pos w - 2 ^ (Z.pos w - 1)
  end.

(** [size_t], the type of [max_size()], [size()] and of the argument of
    [operator[]] (64 bits wide, as on the LP64 and LLP64 data models). *)
Definition size_t : int_type := t_unsigned 64.

(** [std::to_string] of an integer: its decimal representation. *)
Definition std_to_string (z : Z) : string :=
  NilZero.string_of_int (Z.to_int z).

(* ===================================================================== *)
(** ** Results of a call *)
(* ===================================================================== *)

Inductive outcome (A : Type) : Type :=
| Returns (a : A)            (* the call returns [a] *)
| Throws (what : string)     (* [throw std::invalid_argument(what)] *)
| Undefined.                 (* an [operator[]] outside the container *)

Arguments Returns {A} a.
Arguments Throws {A} what.
Arguments Undefined {A}.

(** [c[pos]] for a [std::array] or [std::vector] [c] and [pos] of type
    [size_t]; [None] when [pos] is not below the size. *)
Fixpoint subscript {A : Type} (c : list A) (pos : Z) : option A :=
  match c with
  | [] => None
  | x :: r => if pos =? 0 then Some x else subscript r (pos - 1)
  end.

(* ===================================================================== *)
(** ** The table builder ([to_array], [to_array_impl]) *)
(* ===================================================================== *)

(** A built-in array [T a[N]]: its bound [N] is greater than zero, and
    [to_array] deduces [N] from the braced list it is called with, which
    requires the list to have at least one element. *)
Record c_array (T : Type) : Type := {
  first_elem : T;
  more_elems : list T
}.

Arguments first_elem {T} c.
Arguments more_elems {T} c.

Definition elements {T : Type} (a : c_array T) : list T :=
  first_elem a :: more_elems a.

(** The bound [N] of the array. *)
Definition extent {T : Type} (a : c_array T) : nat :=
  S (length (more_elems a)).

(** [a[i]] for a built-in array and [i < N]. *)
Definition c_subscript {T : Type} (a : c_array T) (i : nat) : T :=
  nth i (elements a) (first_elem a).

(** [std::make_index_sequence<N>]: the indices [0, 1, ..., N-1]. *)
Definition make_index_sequence (N : nat) : list nat := seq 0 N.

(** [to_array_impl(a, std::index_sequence<I...>)] returns [{{a[I]...}}]. *)
Definition to_array_impl {T : Type} (a : c_array T) (I : list nat) : list T :=
  map (fun i => c_subscript a i) I.

(** [to_array(a)] calls [to_array_impl] with [make_index_sequence<N>]. *)
Definition to_array {T : Type} (a : c_array T) : list T :=
  to_array_impl a (make_index_sequence (extent a)).

(* ===================================================================== *)
(** ** [enum.h]: the per-type table and the two conversions *)
(* ===================================================================== *)

(** An enumeration type as the header sees it: its underlying type and
    the names given to [ENUM_STRINGS(E, ...)], if the macro was used for
    it.  A value of the type is the integer it converts to. *)
Record enum_type : Type := {
  base_type : int_type;
  ENUM_STRINGS : option (c_array string)
}.

(** [EnumMetaInfo<E>::Info()]: the specialisation made by [ENUM_STRINGS]
    returns [to_array<std::string>({__VA_ARGS__})]; the primary template
    returns [std::array<std::string, 0>{}]. *)
Definition Info (E : enum_type) : list string :=
  match ENUM_STRINGS E with
  | Some names => to_array names
  | None => []
  end.

(** [enum_to_string(e)]. *)
Definition enum_to_string (E : enum_type) (e : Z) : outcome string :=
  let string_list := Info E in
  let index := static_cast (base_type E) e in
  let max_size := Z.of_nat (length string_list) in
  if index >=? static_cast (base_type E) max_size
  then Returns EmptyString
  else match subscript string_list (static_cast size_t index) with
       | Some s => Returns s
       | None => Undefined
       end.

(** The test of [enum_to_string], [index >= static_cast<base_type>(max_size)]:
    when it holds the call takes the branch that returns [std::string{}]. *)
Definition index_out_of_range (E : enum_type) (e : Z) : bool :=
  static_cast (base_type E) e
  >=? static_cast (base_type E) (Z.of_nat (length (Info E))).

(** The loop [while (n < max_size && string_list[n] != s) ++n;] started
    with the counter at [n]; the value is the counter when the loop is
    left.  Both headers have this loop (the alternate one with
    [strings.size()] for [max_size]). *)
Equations? scan (string_list : list string) (s : string) (n : nat) : nat
  by wf (length string_list - n)%nat lt :=
  scan string_list s n with lt_dec n (length string_list) => {
    | right _ := n;
    | left _ with string_dec (nth n string_list EmptyString) s => {
        | left _ := n;
        | right _ := scan string_list s (S n) } }.
Proof. lia. Qed.

(** [enum_from_string<E>(s)]: [E{}] is the value 0. *)
Definition enum_from_string (E : enum_type) (s : string) : Z :=
  let string_list := Info E in
  let max_size := length string_list in
  let n := scan string_list s 0 in
  if Nat.eqb n max_size then 0 else static_cast (base_type E) (Z.of_nat n).

(* ===================================================================== *)
(** ** The text source read by [operator>>] *)
(* ===================================================================== *)

(** A [std::istream] over a character sequence: the characters not yet
    read and the state bits. *)
Record istream : Type := {
  input : string;
  eofbit : bool;
  failbit : bool;
  badbit : bool
}.

Definition good (ist : istream) : bool :=
  negb (eofbit ist || failbit ist || badbit ist).

(** [std::isspace] in the default locale. *)
Definition isspace (c : ascii) : bool :=
  let n := nat_of_ascii c in
  (Nat.eqb n 32 || (Nat.leb 9 n && Nat.leb n 13))%bool.

Fixpoint skipws (s : string) : string :=
  match s with
  | EmptyString => EmptyString
  | String c r => if isspace c then skipws r else s
  end.

(** The characters up to the next white space, and what follows them. *)
Fixpoint take_token (s : string) : string * string :=
  match s with
  | EmptyString => (EmptyString, EmptyString)
  | String c r =>
      if isspace c then (EmptyString, s)
      else let (tok, rest) := take_token r in (String c tok, rest)
  end.

(** [is >> str] for a [std::string] [str], on a stream in its default
    configuration ([skipws] set, [width() == 0], [exceptions() ==
    goodbit]; [std_read_string_with] below is the operator for every
    configuration): a stream that is not good gets [failbit] and [str] is
    left alone; otherwise leading white space is skipped, and if the input
    ends there the stream gets [eofbit] and [failbit] and [str] is left
    alone; otherwise [str] becomes the characters up to the next white
    space ([eofbit] when the input ends with them). *)
Definition std_read_string (ist : istream) (str : string) : istream * string :=
  if good ist then
    match skipws (input ist) with
    | EmptyString =>
        ({| input := EmptyString; eofbit := true; failbit := true;
            badbit := false |}, str)
    | String c r =>
        let (tok, rest) := take_token (String c r) in
        ({| input := rest;
            eofbit := match rest with EmptyString => true | _ => false end;
            failbit := false; badbit := false |}, tok)
    end
  else
    ({| input := input ist; eofbit := eofbit ist; failbit := true;
        badbit := badbit ist |}, str).

(** [operator>>(std::istream &is, E &e)] of [enum.h]: the stream after the
    call and the value assigned to [e]. *)
Definition operator_shr (E : enum_type) (ist : istream) : istream * Z :=
  let s := EmptyString in
  let (ist', s') := std_read_string ist s in
  (ist', enum_from_string E s').

(* ===================================================================== *)
(** ** The alternate header: namespace [enum_strings] *)
(* ===================================================================== *)

Module enum_strings.

Definition stringlist : Type := list string.

(** An enumeration type for which [ENUM_STRINGS(E, ...)] was used: its
    underlying type and the names of the macro call (any number of them,
    they initialise a [std::vector]). *)
Record enum_type : Type := {
  base_type : int_type;
  ENUM_STRINGS : stringlist
}.

(** The function-local [static stringlist ss] of [_get_enum_strings]:
    [None] until the first call has constructed it. *)
Definition static_ss : Type := option stringlist.

(** [_get_enum_strings(E)]: the first call constructs [ss] from the names
    of the macro call, every call returns (a reference to) [ss]. *)
Definition _get_enum_strings (E : enum_type) (ss : static_ss)
  : stringlist * static_ss :=
  match ss with
  | None => (ENUM_STRINGS E, Some (ENUM_STRINGS E))
  | Some strings => (strings, Some strings)
  end.

(** The argument of [std::invalid_argument] in [to_string]. *)
Definition invalid_value_what (index size : Z) : string :=
  ("Invalid value " ++ std_to_string index ++ ". " ++ "Valid range is 0.."
     ++ std_to_string (static_cast size_t (size - 1)))%string.

(** [enum_strings::to_string(e)], with the static of [_get_enum_strings]
    passed through. *)
Definition to_string (E : enum_type) (e : Z) (ss : static_ss)
  : outcome string * static_ss :=
  let (strings, ss') := _get_enum_strings E ss in
  let index := static_cast (base_type E) e in
  let size := Z.of_nat (length strings) in
  if index >=? static_cast (base_type E) size
  then (Throws (invalid_value_what index size), ss')
  else (match subscript strings (static_cast size_t index) with
        | Some s => Returns s
        | None => Undefined
        end, ss').

(** The statements of [to_string] that follow the binding of [strings]:
    what the call does with the sequence the static holds. *)
Definition to_string_on (E : enum_type) (strings : stringlist) (e : Z)
  : outcome string :=
  let index := static_cast (base_type E) e in
  let size := Z.of_nat (length strings) in
  if index >=? static_cast (base_type E) size
  then Throws (invalid_value_what index size)
  else match subscript strings (static_cast size_t index) with
       | Some s => Returns s
       | None => Undefined
       end.

(** The argument of [std::invalid_argument] in [from_string]. *)
Definition not_valid_what (s : string) : string :=
  ("'" ++ s ++ "' is not a valid string representation of this type")%string.

(** [enum_strings::from_string<E>(s)]. *)
Definition from_string (E : enum_type) (s : string) (ss : static_ss)
  : outcome Z * static_ss :=
  let (strings, ss') := _get_enum_strings E ss in
  let n := scan strings s 0 in
  if Nat.eqb n (length strings)
  then (Throws (not_valid_what s), ss')
  else (Returns (static_cast (base_type E) (Z.of_nat n)), ss').

(** [operator>>(std::istream &is, E &e)] of the alternate header: the
    stream after the call, and the value assigned to [e] or the exception
    that leaves the operator (with [e] not assigned). *)
Definition operator_shr (E : enum_type) (ist : istream) (ss : static_ss)
  : (istream * outcome Z) * static_ss :=
  let s := EmptyString in
  let (ist', s') := std_read_string ist s in
  let (r, ss') := from_string E s' ss in
  ((ist', r), ss').

(** The states of the static that calls can produce. *)
Inductive reachable (E : enum_type) : static_ss -> Prop :=
| reachable_start : reachable E None
| reachable_call : forall ss,
    reachable E ss -> reachable E (snd (_get_enum_strings E ss)).

End enum_strings.

(* ===================================================================== *)
(** ** Declarations and the expressions the properties are about *)
(* ===================================================================== *)

(** The same declaration [ENUM_STRINGS(E, names...)] for an enumeration
    with underlying type [B], seen by each header. *)
Definition declared (B : int_type) (names : c_array string) : enum_type :=
  {| base_type := B; ENUM_STRINGS := Some names |}.

Definition declared_alt (B : int_type) (names : list string)
  : enum_strings.enum_type :=
  {| enum_strings.base_type := B; enum_strings.ENUM_STRINGS := names |}.

(** [enum_from_string<E>(enum_to_string(e))]. *)
Definition round_trip (E : enum_type) (e : Z) : outcome Z :=
  match enum_to_string E e with
  | Returns s => Returns (enum_from_string E s)
  | Throws what => Throws what
  | Undefined => Undefined
  end.

(** [enum_strings::from_string<E>(enum_strings::to_string(e))]. *)
Definition round_trip_alt (E : enum_strings.enum_type) (e : Z)
  (ss : enum_strings.static_ss) : outcome Z :=
  match enum_strings.to_string E e ss with
  | (Returns s, ss') => fst (enum_strings.from_string E s ss')
  | (Throws what, _) => Throws what
  | (Undefined, _) => Undefined
  end.

(** The enumerations of [main.cpp]. *)
Definition StrongEnum_names : c_array string :=
  {| first_elem := "sa"%string; more_elems := ["sb"%string] |}.

Definition NestedEnum_names : c_array string :=
  {| first_elem := "fa"%string; more_elems := ["fb"%string] |}.

(** [enum class StrongEnum : int16_t { A, B }]. *)
Definition StrongEnum : enum_type := declared (t_signed 16) StrongEnum_names.

(** [enum class NestedEnum { A, B, END }], of underlying type [int]. *)
Definition NestedEnum : enum_type := declared (t_signed 32) NestedEnum_names.

(** [enum class Toggle : bool { Off, On }] with
    [ENUM_STRINGS(Toggle, "off", "on")]: one name for each enumerator. *)
Definition Toggle_names : c_array string :=
  {| first_elem := "off"%string; more_elems := ["on"%string] |}.

Definition Toggle : enum_type := declared t_bool Toggle_names.

(** The name ["n<i>"] of the enumerator of value [i]. *)
Definition Octet_name (i : nat) : string :=
  ("n" ++ std_to_string (Z.of_nat i))%string.

(** [enum class Octet : uint8_t { n0, n1, ..., n255 }] with the 256 names
    ["n0"], ..., ["n255"]: one name for each enumerator. *)
Definition Octet_names : c_array string :=
  {| first_elem := Octet_name 0; more_elems := map Octet_name (seq 1 255) |}.

Definition Octet : enum_type := declared (t_unsigned 8) Octet_names.

(** [enum class Overfull : uint8_t { n0, n1, ..., n255 }] with the 257
    names ["n0"], ..., ["n256"]: one name more than the type has values. *)
Definition Overfull_names : c_array string :=
  {| first_elem := Octet_name 0; more_elems := map Octet_name (seq 1 256) |}.

Definition Overfull : enum_type := declared (t_unsigned 8) Overfull_names.

(** [enum class Plain : int16_t { P }], for which [ENUM_STRINGS] is not
    used. *)
Definition Plain : enum_type :=
  {| base_type := t_signed 16; ENUM_STRINGS := None |}.

(** The same enumerations declared with the alternate header. *)
Definition StrongEnum_alt : enum_strings.enum_type :=
  declared_alt (t_signed 16) (elements StrongEnum_names).

Definition NestedEnum_alt : enum_strings.enum_type :=
  declared_alt (t_signed 32) (elements NestedEnum_names).

Definition Toggle_alt : enum_strings.enum_type :=
  declared_alt t_bool (elements Toggle_names).

Definition Octet_alt : enum_strings.enum_type :=
  declared_alt (t_unsigned 8) (elements Octet_names).

Definition Overfull_alt : enum_strings.enum_type :=
  declared_alt (t_unsigned 8) (elements Overfull_names).

(** A good text source that holds [text]. *)
Definition holding (text : string) : istream :=
  {| input := text; eofbit := false; failbit := false; badbit := false |}.

(** A text source at its end. *)
Definition at_end : istream := holding EmptyString.

(** The source cannot supply a token: it is not good, or only white
    space is left in it. *)
Definition exhausted (ist : istream) : Prop :=
  good ist = false \/ skipws (input ist) = EmptyString.

(* ===================================================================== *)
(** ** Insertion into a stream, and the tests of [main.cpp] *)
(* ===================================================================== *)

(** [os << str] for a [std::string] on a stream whose characters are
    [input] (for the [std::stringstream] of [main.cpp]: the characters
    written and not yet read), in its default configuration
    ([width() == 0], [exceptions() == goodbit]; [std_write_string_with]
    below is the operator for every configuration): a good stream gets the
    characters of [str] appended; a stream that is not good is written
    nothing, and the sentry of the library ([if (os.good()) ... else if
    (os.bad()) os.setstate(failbit)]) gives it [failbit] when it has
    [badbit]. *)
Definition std_write_string (os : istream) (str : string) : istream :=
  if good os then
    {| input := (input os ++ str)%string; eofbit := false; failbit := false;
       badbit := false |}
  else if badbit os then
    {| input := input os; eofbit := eofbit os; failbit := true;
       badbit := badbit os |}
  else os.

(** [operator<<(std::ostream &os, const E &e)] of [enum.h]:
    [os << enum_to_string(e); return os;]. *)
Definition operator_shl (E : enum_type) (os : istream) (e : Z)
  : outcome istream :=
  match enum_to_string E e with
  | Returns s => Returns (std_write_string os s)
  | Throws what => Throws what
  | Undefined => Undefined
  end.

(** [operator<<(std::ostream &os, E const e)] of the alternate header:
    [os << ::enum_strings::to_string(e); return os;].  When [to_string]
    throws nothing has been written to [os]. *)
Definition operator_shl_alt (E : enum_strings.enum_type) (os : istream)
  (e : Z) (ss : enum_strings.static_ss)
  : outcome istream * enum_strings.static_ss :=
  match enum_strings.to_string E e ss with
  | (Returns s, ss') => (Returns (std_write_string os s), ss')
  | (Throws what, ss') => (Throws what, ss')
  | (Undefined, ss') => (Undefined, ss')
  end.

(** How a run of the test program ends. *)
Inductive test_result : Type :=
| Passed                      (* every [assert] held *)
| AssertionFailed             (* an [assert] did not hold *)
| Uncaught (what : string)    (* an exception left the test *)
| UndefinedBehaviour.         (* a subscript outside the table *)

(** [test_to_from_string(e, s)]:
    [assert(enum_to_string(e) == s); assert(enum_from_string<E>(s) == e);]. *)
Definition test_to_from_string (E : enum_type) (e : Z) (s : string)
  : test_result :=
  match enum_to_string E e with
  | Returns s' =>
      if String.eqb s' s then
        if enum_from_string E s =? e then Passed else AssertionFailed
      else AssertionFailed
  | Throws what => Uncaught what
  | Undefined => UndefinedBehaviour
  end.

(** [test_stream_io(e)]:
    [std::stringstream ss; ss << e; E v; ss >> v; assert(v == e);]. *)
Definition test_stream_io (E : enum_type) (e : Z) : test_result :=
  let ss := holding EmptyString in
  match operator_shl E ss e with
  | Returns ss1 =>
      let (ss2, v) := operator_shr E ss1 in
      if v =? e then Passed else AssertionFailed
  | Throws what => Uncaught what
  | Undefined => UndefinedBehaviour
  end.

(** A token of the input: not empty and without white space; and what can
    follow a token in the input: nothing, or a white space first. *)
Fixpoint no_space (s : string) : bool :=
  match s with
  | EmptyString => true
  | String c r => negb (isspace c) && no_space r
  end.

Fixpoint all_space (s : string) : bool :=
  match s with
  | EmptyString => true
  | String c r => isspace c && all_space r
  end.

Definition is_token (s : string) : bool :=
  match s with
  | EmptyString => false
  | String _ _ => no_space s
  end.

Definition ends_token (rest : string) : bool :=
  match rest with
  | EmptyString => true
  | String c _ => isspace c
  end.

(** The stream after a token has been read from a good stream: [rest] is
    left in it, and [eofbit] is set when the token ended the input. *)
Definition after_token (rest : string) : istream :=
  {| input := rest;
     eofbit := match rest with EmptyString => true | _ => false end;
     failbit := false; badbit := false |}.

(* ===================================================================== *)
(** ** Streams with their formatting state *)
(* ===================================================================== *)

(** The part of [std::ios_base] and [std::basic_ios] that the string
    operators read: the exception mask ([exceptions()]), the [skipws] flag,
    whether [adjustfield] is [left], the field width and the fill
    character. *)
Record ios_fmt : Type := {
  exceptions_eof : bool;
  exceptions_fail : bool;
  exceptions_bad : bool;
  skipws_flag : bool;
  left_flag : bool;
  width : Z;
  fill : ascii
}.

(** The state of a stream that was just constructed. *)
Definition default_fmt : ios_fmt :=
  {| exceptions_eof := false; exceptions_fail := false;
     exceptions_bad := false; skipws_flag := true; left_flag := false;
     width := 0; fill := " "%char |}.

(** [width(w)]. *)
Definition with_width (fmt : ios_fmt) (w : Z) : ios_fmt :=
  {| exceptions_eof := exceptions_eof fmt;
     exceptions_fail := exceptions_fail fmt;
     exceptions_bad := exceptions_bad fmt; skipws_flag := skipws_flag fmt;
     left_flag := left_flag fmt; width := w; fill := fill fmt |}.

(** [exceptions() & rdstate()], the test of [basic_ios::clear]. *)
Definition raises (fmt : ios_fmt) (ist : istream) : bool :=
  (exceptions_eof fmt && eofbit ist) || (exceptions_fail fmt && failbit ist)
  || (exceptions_bad fmt && badbit ist).

(** How a stream operation ends: it returns, with the stream as it is
    then, or [std::ios_base::failure] leaves it, with the stream as it is
    then. *)
Inductive io_result (A : Type) : Type :=
| Done (fmt : ios_fmt) (ist : istream) (a : A)
| Failure (fmt : ios_fmt) (ist : istream).

Arguments Done {A} fmt ist a.
Arguments Failure {A} fmt ist.

(** The end of [setstate]: the state bits are set, then
    [std::ios_base::failure] is thrown if the exception mask selects one
    of the bits that are set. *)
Definition checked {A : Type} (fmt : ios_fmt) (ist : istream) (a : A)
  : io_result A :=
  if raises fmt ist then Failure fmt ist else Done fmt ist a.

(** At most [n] characters up to the next white space, and what follows
    them. *)
Fixpoint take_token_upto (n : nat) (s : string) : string * string :=
  match n with
  | O => (EmptyString, s)
  | S m =>
      match s with
      | EmptyString => (EmptyString, EmptyString)
      | String c r =>
          if isspace c then (EmptyString, s)
          else let (tok, rest) := take_token_upto m r in (String c tok, rest)
      end
  end.

(** [is >> str] for a [std::string] [str].  The sentry gives a stream
    that is not good [failbit]; on a good stream it skips white space if
    [skipws] is set, and gives the stream [eofbit] and [failbit] if the
    input ends there; in both cases [str] and the width are left alone.
    Otherwise [str] is erased and gets the characters up to the next white
    space, at most [width()] of them if [width() > 0]; [eofbit] is set if
    the input ended before that many were read, [failbit] if no character
    was read, and the width is reset to 0. *)
Definition std_read_string_with (fmt : ios_fmt) (ist : istream) (str : string)
  : io_result string :=
  if good ist then
    let inp := if skipws_flag fmt then skipws (input ist) else input ist in
    match skipws_flag fmt, inp with
    | true, EmptyString =>
        checked fmt
          {| input := EmptyString; eofbit := true; failbit := true;
             badbit := false |} str
    | _, _ =>
        let (tok, rest) :=
          if 0 <? width fmt then take_token_upto (Z.to_nat (width fmt)) inp
          else take_token inp in
        let at_eof :=
          match rest with
          | EmptyString =>
              (width fmt <=? 0) || (Z.of_nat (String.length tok) <? width fmt)
          | String _ _ => false
          end in
        let no_chars :=
          match tok with EmptyString => true | String _ _ => false end in
        checked (with_width fmt 0)
          {| input := rest; eofbit := at_eof; failbit := no_chars;
             badbit := false |} tok
    end
  else
    checked fmt
      {| input := input ist; eofbit := eofbit ist; failbit := true;
         badbit := badbit ist |} str.

(** [n] fill characters. *)
Fixpoint fill_chars (n : nat) (c : ascii) : string :=
  match n with
  | O => EmptyString
  | S m => String c (fill_chars m c)
  end.

(** The characters that [os << str] writes: [str], padded with the fill
    character to [width()] when it is shorter, after [str] if
    [adjustfield] is [left] and before it otherwise. *)
Definition padded (fmt : ios_fmt) (str : string) : string :=
  let n := Z.of_nat (String.length str) in
  if n <? width fmt then
    let pad := fill_chars (Z.to_nat (width fmt - n)) (fill fmt) in
    if left_flag fmt then (str ++ pad)%string else (pad ++ str)%string
  else str.

(** [os << str] for a [std::string]: a good stream gets the padded
    characters and its width is reset to 0; a stream that is not good is
    written nothing, and gets [failbit] when it has [badbit]. *)
Definition std_write_string_with (fmt : ios_fmt) (os : istream) (str : string)
  : io_result unit :=
  if good os then
    Done (with_width fmt 0)
      {| input := (input os ++ padded fmt str)%string; eofbit := false;
         failbit := false; badbit := false |} tt
  else if badbit os then
    checked fmt
      {| input := input os; eofbit := eofbit os; failbit := true;
         badbit := badbit os |} tt
  else Done fmt os tt.

(** [operator>>(std::istream &is, E &e)] of [enum.h] on a stream in any
    configuration: when [is >> s] throws, [enum_from_string] is not called
    and [e] is not assigned. *)
Definition operator_shr_with (E : enum_type) (fmt : ios_fmt) (ist : istream)
  : io_result Z :=
  let s := EmptyString in
  match std_read_string_with fmt ist s with
  | Done fmt' ist' s' => Done fmt' ist' (enum_from_string E s')
  | Failure fmt' ist' => Failure fmt' ist'
  end.

(** [operator>>(std::istream &is, E &e)] of the alternate header on a
    stream in any configuration: when [is >> s] throws, [from_string] is
    not called; otherwise the operator returns with the value assigned to
    [e], or the exception of [from_string] leaves it. *)
Definition operator_shr_alt_with (E : enum_strings.enum_type) (fmt : ios_fmt)
  (ist : istream) (ss : enum_strings.static_ss)
  : io_result (outcome Z) * enum_strings.static_ss :=
  let s := EmptyString in
  match std_read_string_with fmt ist s with
  | Done fmt' ist' s' =>
      let (r, ss') := enum_strings.from_string E s' ss in
      (Done fmt' ist' r, ss')
  | Failure fmt' ist' => (Failure fmt' ist', ss)
  end.

(** [operator<<(std::ostream &os, const E &e)] of [enum.h] on a stream in
    any configuration. *)
Definition operator_shl_with (E : enum_type) (fmt : ios_fmt) (os : istream)
  (e : Z) : outcome (io_result unit) :=
  match enum_to_string E e with
  | Returns s => Returns (std_write_string_with fmt os s)
  | Throws what => Throws what
  | Undefined => Undefined
  end.

(** The source cannot supply a token to a read in the configuration
    [fmt]: it is not good; or white space is skipped and nothing else is
    left; or white space is not skipped and the input is at its end or at
    a white space. *)
Definition cannot_supply (fmt : ios_fmt) (ist : istream) : Prop :=
  good ist = false \/
  (if skipws_flag fmt then skipws (input ist) = EmptyString
   else ends_token (input ist) = true).

(** What a caller may see of a call whose outcome is [o]: the outcome
    itself when the call returns or throws, and anything at all after a
    subscript outside the table, for which the language sets no
    requirement. *)
Definition may_observe {A : Type} (o seen : outcome A) : Prop :=
  match o with
  | Undefined => True
  | _ => seen = o
  end.

(* ===================================================================== *)
(** ** Integer conversions *)
(* ===================================================================== *)

Lemma min_value_nonpos (T : int_type) : min_value T <= 0.
Proof.
  destruct T as [| w | w]; unfold min_value; lia.
Qed.

Lemma pow2_halves (w : positive) : 2 ^ Z.pos w = 2 * 2 ^ (Z.pos w - 1).
Proof.
  replace (Z.pos w) with (Z.succ (Z.pos w - 1)) at 1 by lia.
  apply Z.pow_succ_r. lia.
Qed.

(** A value of the type is kept by the conversion to it. *)
Lemma static_cast_in_range (T : int_type) (z : Z) :
  in_range T z -> static_cast T z = z.
Proof.
  unfold in_range, static_cast, min_value, max_value.
  destruct T as [| w | w]; intros [Hlo Hhi].
  - destruct (Z.eqb_spec z 0); lia.
  - apply Z.mod_small. lia.
  - pose proof (pow2_halves w) as Hw.
    rewrite Z.mod_small; lia.
Qed.

Lemma in_range_nonneg (T : int_type) (z : Z) :
  0 <= z -> z <= max_value T -> in_range T z.
Proof.
  intros Hz Hm. split; [|exact Hm].
  pose proof (min_value_nonpos T). lia.
Qed.

(* ===================================================================== *)
(** ** Containers *)
(* ===================================================================== *)

Lemma subscript_nth_error {A : Type} (c : list A) (pos : Z) :
  0 <= pos -> subscript c pos = nth_error c (Z.to_nat pos).
Proof.
  revert pos. induction c as [| x r IH]; intros pos Hpos; simpl.
  - destruct (Z.to_nat pos); reflexivity.
  - destruct (Z.eqb_spec pos 0) as [-> | Hne]; [reflexivity|].
    rewrite IH by lia.
    replace (Z.to_nat pos) with (S (Z.to_nat (pos - 1))) by lia.
    reflexivity.
Qed.

Lemma map_nth_seq {A : Type} (l : list A) (d : A) :
  map (fun i => nth i l d) (seq 0 (length l)) = l.
Proof.
  induction l as [| x l IH]; simpl; [reflexivity|].
  f_equal. rewrite <- seq_shift, map_map. exact IH.
Qed.

Lemma to_array_elements {T : Type} (a : c_array T) :
  to_array a = elements a.
Proof.
  unfold to_array, to_array_impl, make_index_sequence, c_subscript, extent.
  change (S (length (more_elems a))) with (length (elements a)).
  apply map_nth_seq.
Qed.

Lemma Info_declared (B : int_type) (names : c_array string) :
  Info (declared B names) = elements names.
Proof. unfold Info, declared; simpl. apply to_array_elements. Qed.

(* ===================================================================== *)
(** ** The scanning loop *)
(* ===================================================================== *)

(** The loop is left with the counter [r] between its start and the size,
    at an entry equal to [s] if [r] is below the size, and it has passed
    no entry equal to [s]. *)
Lemma scan_spec (l : list string) (s : string) (n : nat) :
  (n <= length l)%nat ->
  (n <= scan l s n <= length l)%nat /\
  ((scan l s n < length l)%nat -> nth (scan l s n) l EmptyString = s) /\
  (forall i, (n <= i < scan l s n)%nat -> nth i l EmptyString <> s).
Proof.
  funelim (scan l s n); intros Hn.
  - (* the counter has reached the size *)
    split; [lia | split; intros; lia].
  - (* the entry at the counter is [s] *)
    split; [lia | split; [intros _; assumption | intros; lia]].
  - (* one more turn of the loop *)
    match goal with
    | IH : (S _ <= _)%nat -> _ |- _ =>
        destruct IH as (Hb & Hfound & Hpassed); [lia|]
    end.
    split; [lia | split; [exact Hfound|]].
    intros i Hi.
    destruct (Nat.eq_dec i n) as [-> | Hne]; [assumption|].
    apply Hpassed. lia.
Qed.

(** The counter at the exit is the first index of [s], when there is
    one. *)
Lemma scan_first_match (l : list string) (s : string) (n : nat) :
  nth_error l n = Some s ->
  (forall i, (i < n)%nat -> nth_error l i <> Some s) ->
  scan l s 0 = n.
Proof.
  intros Hn Hfirst.
  assert (Hlen : (n < length l)%nat) by (apply nth_error_Some; congruence).
  destruct (scan_spec l s 0 ltac:(lia)) as (Hb & Hfound & Hpassed).
  destruct (Nat.lt_trichotomy (scan l s 0) n) as [Hlt | [Heq | Hgt]].
  - exfalso. apply (Hfirst _ Hlt).
    rewrite (nth_error_nth' l EmptyString) by lia.
    f_equal. apply Hfound. lia.
  - exact Heq.
  - exfalso. apply (Hpassed n); [lia|].
    apply nth_error_nth. exact Hn.
Qed.

(** The loop runs to the size when [s] is not in the sequence. *)
Lemma scan_not_found (l : list string) (s : string) :
  ~ In s l -> scan l s 0 = length l.
Proof.
  intros Hnot.
  destruct (scan_spec l s 0 ltac:(lia)) as (Hb & Hfound & _).
  destruct (Nat.eq_dec (scan l s 0) (length l)) as [Heq | Hne]; [exact Heq|].
  exfalso. apply Hnot.
  rewrite <- (Hfound ltac:(lia)). apply nth_In. lia.
Qed.

(** And it stops below the size when [s] is in the sequence. *)
Lemma scan_found (l : list string) (s : string) :
  In s l -> (scan l s 0 < length l)%nat.
Proof.
  intros Hin.
  destruct (scan_spec l s 0 ltac:(lia)) as (Hb & _ & Hpassed).
  destruct (In_nth l s EmptyString Hin) as (i & Hi & Hnth).
  destruct (Nat.lt_ge_cases (scan l s 0) (length l)) as [Hlt | Hge]; [exact Hlt|].
  exfalso. apply (Hpassed i); [lia | exact Hnth].
Qed.

(* ===================================================================== *)
(** ** [enum.h]: the conversions on a table whose size is representable *)
(* ===================================================================== *)

Section EnumH.

Variable E : enum_type.

(** [enum_to_string] returns the entry at the value, when the number of
    names is itself a value of the underlying type. *)
Lemma enum_to_string_in_table (e : Z) (s : string) :
  Z.of_nat (length (Info E)) <= max_value (base_type E) ->
  Z.of_nat (length (Info E)) <= max_value size_t ->
  0 <= e ->
  nth_error (Info E) (Z.to_nat e) = Some s ->
  enum_to_string E e = Returns s.
Proof.
  intros Hfit Hsize He Hnth.
  assert (Hlt : (Z.to_nat e < length (Info E))%nat)
    by (apply nth_error_Some; congruence).
  unfold enum_to_string; cbv zeta.
  rewrite !(static_cast_in_range (base_type E)) by (apply in_range_nonneg; lia).
  rewrite Z.geb_leb.
  destruct (Z.leb_spec (Z.of_nat (length (Info E))) e) as [Hle | _]; [lia|].
  rewrite static_cast_in_range by (apply in_range_nonneg; lia).
  rewrite subscript_nth_error by lia.
  rewrite Hnth. reflexivity.
Qed.

(** [enum_to_string] returns the empty string for a value at or beyond
    the number of names. *)
Lemma enum_to_string_beyond_table (e : Z) :
  Z.of_nat (length (Info E)) <= max_value (base_type E) ->
  in_range (base_type E) e ->
  Z.of_nat (length (Info E)) <= e ->
  enum_to_string E e = Returns EmptyString.
Proof.
  intros Hfit Hrange He.
  unfold enum_to_string; cbv zeta.
  rewrite (static_cast_in_range _ _ Hrange).
  rewrite static_cast_in_range by (apply in_range_nonneg; lia).
  rewrite Z.geb_leb.
  destruct (Z.leb_spec (Z.of_nat (length (Info E))) e); [reflexivity | lia].
Qed.

(** [enum_from_string] returns the first index of [s], when that index is
    a value of the underlying type. *)
Lemma enum_from_string_at_first_match (s : string) (n : nat) :
  nth_error (Info E) n = Some s ->
  (forall i, (i < n)%nat -> nth_error (Info E) i <> Some s) ->
  in_range (base_type E) (Z.of_nat n) ->
  enum_from_string E s = Z.of_nat n.
Proof.
  intros Hnth Hfirst Hrange.
  assert (Hlt : (n < length (Info E))%nat)
    by (apply nth_error_Some; congruence).
  unfold enum_from_string; cbv zeta.
  rewrite (scan_first_match _ _ _ Hnth Hfirst).
  destruct (Nat.eqb_spec n (length (Info E))) as [Heq | _]; [lia|].
  apply static_cast_in_range. exact Hrange.
Qed.

(** [enum_from_string] returns [E{}] for a string that is not a name. *)
Lemma enum_from_string_not_found (s : string) :
  ~ In s (Info E) -> enum_from_string E s = 0.
Proof.
  intros Hnot. unfold enum_from_string; cbv zeta.
  rewrite (scan_not_found _ _ Hnot), Nat.eqb_refl. reflexivity.
Qed.

End EnumH.

(* ===================================================================== *)
(** ** The alternate header: the static and the conversions *)
(* ===================================================================== *)

Section EnumStrings.

Import enum_strings.

Variable E : enum_strings.enum_type.

(** The static is either not yet constructed or holds the names of the
    macro call. *)
Lemma reachable_inv (ss : static_ss) :
  reachable E ss -> ss = None \/ ss = Some (enum_strings.ENUM_STRINGS E).
Proof.
  induction 1 as [| ss _ [-> | ->]]; simpl; auto.
Qed.

Lemma get_enum_strings_reachable (ss : static_ss) :
  reachable E ss ->
  _get_enum_strings E ss
  = (enum_strings.ENUM_STRINGS E, Some (enum_strings.ENUM_STRINGS E)).
Proof.
  intros H. destruct (reachable_inv ss H) as [-> | ->]; reflexivity.
Qed.

Lemma to_string_reachable (e : Z) (ss : static_ss) :
  reachable E ss ->
  to_string E e ss
  = (to_string_on E (enum_strings.ENUM_STRINGS E) e,
     Some (enum_strings.ENUM_STRINGS E)).
Proof.
  intros H. unfold to_string, to_string_on.
  rewrite (get_enum_strings_reachable ss H); cbv zeta.
  destruct (_ >=? _); reflexivity.
Qed.

Lemma to_string_in_table (e : Z) (s : string) (ss : static_ss) :
  reachable E ss ->
  Z.of_nat (length (enum_strings.ENUM_STRINGS E))
    <= max_value (enum_strings.base_type E) ->
  Z.of_nat (length (enum_strings.ENUM_STRINGS E)) <= max_value size_t ->
  0 <= e ->
  nth_error (enum_strings.ENUM_STRINGS E) (Z.to_nat e) = Some s ->
  to_string E e ss = (Returns s, Some (enum_strings.ENUM_STRINGS E)).
Proof.
  intros Hss Hfit Hsize He Hnth.
  assert (Hlt : (Z.to_nat e < length (enum_strings.ENUM_STRINGS E))%nat)
    by (apply nth_error_Some; congruence).
  rewrite (to_string_reachable e ss Hss). f_equal.
  unfold to_string_on; cbv zeta.
  rewrite !(static_cast_in_range (enum_strings.base_type E))
    by (apply in_range_nonneg; lia).
  rewrite Z.geb_leb.
  destruct (Z.leb_spec (Z.of_nat (length (enum_strings.ENUM_STRINGS E))) e)
    as [Hle | _]; [lia|].
  rewrite static_cast_in_range by (apply in_range_nonneg; lia).
  rewrite subscript_nth_error by lia.
  rewrite Hnth. reflexivity.
Qed.

(** [to_string] throws, with the value and the range in the message, for
    a value at or beyond the number of names. *)
Lemma to_string_beyond_table (e : Z) (ss : static_ss) :
  reachable E ss ->
  Z.of_nat (length (enum_strings.ENUM_STRINGS E))
    <= max_value (enum_strings.base_type E) ->
  in_range (enum_strings.base_type E) e ->
  Z.of_nat (length (enum_strings.ENUM_STRINGS E)) <= e ->
  fst (to_string E e ss)
  = Throws (invalid_value_what
              e (Z.of_nat (length (enum_strings.ENUM_STRINGS E)))).
Proof.
  intros Hss Hfit Hrange He.
  rewrite (to_string_reachable e ss Hss). simpl fst.
  unfold to_string_on; cbv zeta.
  rewrite (static_cast_in_range _ _ Hrange).
  rewrite static_cast_in_range by (apply in_range_nonneg; lia).
  rewrite Z.geb_leb.
  destruct (Z.leb_spec (Z.of_nat (length (enum_strings.ENUM_STRINGS E))) e);
    [reflexivity | lia].
Qed.

Lemma from_string_at_first_match (s : string) (n : nat) (ss : static_ss) :
  reachable E ss ->
  nth_error (enum_strings.ENUM_STRINGS E) n = Some s ->
  (forall i, (i < n)%nat ->
             nth_error (enum_strings.ENUM_STRINGS E) i <> Some s) ->
  in_range (enum_strings.base_type E) (Z.of_nat n) ->
  from_string E s ss
  = (Returns (Z.of_nat n), Some (enum_strings.ENUM_STRINGS E)).
Proof.
  intros Hss Hnth Hfirst Hrange.
  assert (Hlt : (n < length (enum_strings.ENUM_STRINGS E))%nat)
    by (apply nth_error_Some; congruence).
  unfold from_string.
  rewrite (get_enum_strings_reachable ss Hss); cbv zeta.
  rewrite (scan_first_match _ _ _ Hnth Hfirst).
  destruct (Nat.eqb_spec n (length (enum_strings.ENUM_STRINGS E)))
    as [Heq | _]; [lia|].
  rewrite (static_cast_in_range _ _ Hrange). reflexivity.
Qed.


End EnumStrings.

Lemma reachable_constructed (E : enum_strings.enum_type) :
  enum_strings.reachable E (Some (enum_strings.ENUM_STRINGS E)).
Proof.
  exact (enum_strings.reachable_call E None (enum_strings.reachable_start E)).
Qed.

(* ===================================================================== *)
(** ** Both headers on the same declaration *)
(* ===================================================================== *)

Section SameDeclaration.

Variable B : int_type.
Variable names : c_array string.

Let E := declared B names.
Let E' := declared_alt B (elements names).

(** In a sequence without repetition every entry is the first match of
    itself. *)
Lemma NoDup_first_match (l : list string) (n : nat) (s : string) :
  NoDup l -> nth_error l n = Some s ->
  forall i, (i < n)%nat -> nth_error l i <> Some s.
Proof.
  intros Hnd Hn i Hi Hi'.
  assert (Hlt : (i < length l)%nat) by (apply nth_error_Some; congruence).
  assert (i = n) by (apply (proj1 (NoDup_nth_error l) Hnd); congruence).
  lia.
Qed.

(** The round trip holds, in both headers, when the names are pairwise
    distinct and the number of names is itself a value of the underlying
    type. *)
Lemma round_trip_when_count_fits (e : Z) :
  NoDup (elements names) ->
  Z.of_nat (extent names) <= max_value B ->
  Z.of_nat (extent names) <= max_value size_t ->
  0 <= e < Z.of_nat (extent names) ->
  round_trip E e = Returns e /\
  forall ss, enum_strings.reachable E' ss -> round_trip_alt E' e ss = Returns e.
Proof.
  intros Hnd Hfit Hsize He.
  change (extent names) with (length (elements names)) in *.
  destruct (nth_error (elements names) (Z.to_nat e)) as [s|] eqn:Hnth;
    [| apply nth_error_None in Hnth; lia].
  pose proof (NoDup_first_match _ _ _ Hnd Hnth) as Hfirst.
  assert (Hrange : in_range B (Z.of_nat (Z.to_nat e)))
    by (apply in_range_nonneg; lia).
  split.
  - unfold round_trip.
    rewrite (enum_to_string_in_table E e s);
      try (unfold E; rewrite Info_declared); try assumption; try lia.
    rewrite (enum_from_string_at_first_match E s (Z.to_nat e));
      try (unfold E; rewrite Info_declared); try assumption.
    f_equal. lia.
  - intros ss Hss. unfold round_trip_alt.
    rewrite (to_string_in_table E' e s ss Hss); try assumption; try lia.
    rewrite (from_string_at_first_match E' s (Z.to_nat e));
      try assumption; [| apply reachable_constructed].
    simpl. f_equal. lia.
Qed.

(** The two [from_string] return the same value for every name of the
    declaration. *)
Lemma from_string_agree (s : string) (ss : enum_strings.static_ss) :
  enum_strings.reachable E' ss ->
  In s (elements names) ->
  fst (enum_strings.from_string E' s ss) = Returns (enum_from_string E s).
Proof.
  intros Hss Hin.
  unfold enum_strings.from_string, enum_from_string.
  rewrite (get_enum_strings_reachable E' ss Hss); cbv zeta.
  unfold E; rewrite Info_declared. simpl enum_strings.ENUM_STRINGS.
  pose proof (scan_found _ _ Hin) as Hlt.
  destruct (Nat.eqb_spec (scan (elements names) s 0) (length (elements names)))
    as [Heq | _]; [lia|].
  reflexivity.
Qed.

End SameDeclaration.

(* ===================================================================== *)
(** ** No subscript out of bounds for a value that is not negative *)
(* ===================================================================== *)

Lemma static_cast_le (T : int_type) (z : Z) :
  0 <= z -> static_cast T z <= z.
Proof.
  intros Hz. unfold static_cast. destruct T as [| w | w].
  - destruct (Z.eqb_spec z 0); lia.
  - apply Z.mod_le; lia.
  - pose proof (pow2_halves w) as Hw.
    assert (0 < 2 ^ (Z.pos w - 1)) by (apply Z.pow_pos_nonneg; lia).
    pose proof (Z.mod_le (z + 2 ^ (Z.pos w - 1)) (2 ^ Z.pos w)
                  ltac:(lia) ltac:(lia)).
    lia.
Qed.

(** An index that is not negative and passes the test against the
    narrowed size is below the size. *)
Lemma subscript_below_bound {A : Type} (c : list A) (T : int_type) (index : Z) :
  0 <= index < static_cast T (Z.of_nat (length c)) ->
  Z.of_nat (length c) <= max_value size_t ->
  exists x, subscript c (static_cast size_t index) = Some x.
Proof.
  intros Hidx Hsize.
  pose proof (static_cast_le T (Z.of_nat (length c)) ltac:(lia)) as Hle.
  rewrite static_cast_in_range by (apply in_range_nonneg; lia).
  rewrite subscript_nth_error by lia.
  destruct (nth_error c (Z.to_nat index)) as [x|] eqn:Hnth; [eauto|].
  apply nth_error_None in Hnth. lia.
Qed.

Lemma enum_to_string_defined (E : enum_type) (e : Z) :
  0 <= static_cast (base_type E) e ->
  Z.of_nat (length (Info E)) <= max_value size_t ->
  enum_to_string E e <> Undefined.
Proof.
  intros He Hsize. unfold enum_to_string; cbv zeta.
  rewrite Z.geb_leb.
  destruct (Z.leb_spec (static_cast (base_type E) (Z.of_nat (length (Info E))))
              (static_cast (base_type E) e)) as [_ | Hlt]; [discriminate|].
  destruct (subscript_below_bound (Info E) (base_type E)
              (static_cast (base_type E) e) ltac:(lia) Hsize) as [x ->].
  discriminate.
Qed.

Lemma to_string_defined
  (E : enum_strings.enum_type) (e : Z) (ss : enum_strings.static_ss) :
  enum_strings.reachable E ss ->
  0 <= static_cast (enum_strings.base_type E) e ->
  Z.of_nat (length (enum_strings.ENUM_STRINGS E)) <= max_value size_t ->
  fst (enum_strings.to_string E e ss) <> Undefined.
Proof.
  intros Hss He Hsize.
  rewrite (to_string_reachable E e ss Hss). simpl fst.
  unfold enum_strings.to_string_on; cbv zeta.
  rewrite Z.geb_leb.
  destruct (Z.leb_spec
              (static_cast (enum_strings.base_type E)
                 (Z.of_nat (length (enum_strings.ENUM_STRINGS E))))
              (static_cast (enum_strings.base_type E) e)) as [_ | Hlt];
    [discriminate|].
  destruct (subscript_below_bound (enum_strings.ENUM_STRINGS E)
              (enum_strings.base_type E)
              (static_cast (enum_strings.base_type E) e) ltac:(lia) Hsize)
    as [x ->].
  discriminate.
Qed.

(* ===================================================================== *)
(** ** The round trip *)
(* ===================================================================== *)

Lemma nodup_fixed_NoDup (l : list string) :
  nodup string_dec l = l -> NoDup l.
Proof. intros H. rewrite <- H. apply NoDup_nodup. Qed.

Lemma Octet_names_distinct : NoDup (elements Octet_names).
Proof. apply nodup_fixed_NoDup. vm_compute. reflexivity. Qed.

(** The same break of the round trip for the 256 enumerators of an
    enumeration over [uint8_t]: [static_cast<uint8_t>(256)] is 0. *)
Lemma round_trip_Octet :
  length (Info Octet) = 256%nat /\
  max_value (base_type Octet) = 255 /\
  enum_to_string Octet 1 = Returns EmptyString /\
  round_trip Octet 1 = Returns 0 /\
  round_trip_alt Octet_alt 1 None
  = Throws "Invalid value 1. Valid range is 0..255"%string.
Proof. vm_compute. repeat split; reflexivity. Qed.

(** C1. Round trip: [from_string<E>(to_string(e)) == e] for an enumeration
    with one name for each enumerator and pairwise distinct names.  It
    does not hold at [Toggle::On] of [enum class Toggle : bool { Off, On }]
    with the names "off" and "on": the bound of the test in
    [enum_to_string] is [static_cast<bool>(2)], which is [true], so the
    enumerator of value 1 is answered with the empty string, and
    [enum_from_string] answers the empty string with [E{}], the value 0;
    the alternate header throws from [to_string]. *)
Theorem round_trip_breaks_at_Toggle_On :
  NoDup (Info Toggle) /\
  length (Info Toggle) = 2%nat /\
  in_range (base_type Toggle) 1 /\
  round_trip Toggle 1 = Returns 0 /\
  round_trip_alt Toggle_alt 1 None
  = Throws "Invalid value 1. Valid range is 0..1"%string.
Proof.
  split; [| split; [| split; [| split]]].
  - unfold Toggle. rewrite Info_declared.
    repeat constructor; simpl; intuition discriminate.
  - reflexivity.
  - unfold in_range; simpl; lia.
  - vm_compute. reflexivity.
  - vm_compute. reflexivity.
Qed.

(* ===================================================================== *)
(** ** Names that are not in the table, values that are not in it *)
(* ===================================================================== *)

(** In the alternate header a negative value passes the test of
    [to_string] and indexes the vector out of its bounds. *)
Lemma to_string_negative_value :
  in_range (enum_strings.base_type StrongEnum_alt) (-1) /\
  fst (enum_strings.to_string StrongEnum_alt (-1) None) = Undefined.
Proof. split; [unfold in_range; simpl; lia | reflexivity]. Qed.

(** C2. Unknown-name rejection: [from_string<E>(s)] fails with an error
    carrying [s] when [s] is no entry of the table.  [enum_from_string] of
    [enum.h] returns [E{}] instead (here [StrongEnum::A] for "sx"); the
    alternate header throws with the string in the message. *)
Theorem enum_from_string_unknown_name_returns_default :
  ~ In "sx"%string (Info StrongEnum) /\
  enum_from_string StrongEnum "sx" = 0 /\
  fst (enum_strings.from_string StrongEnum_alt "sx" None)
  = Throws "'sx' is not a valid string representation of this type"%string.
Proof.
  split; [| split].
  - unfold StrongEnum. rewrite Info_declared. simpl. intuition discriminate.
  - vm_compute. reflexivity.
  - vm_compute. reflexivity.
Qed.

(** C3. Out-of-range rejection: [to_string(e)] fails with an error when
    the value of [e] is outside the table.  [enum_to_string] of [enum.h]
    returns the empty string instead (here for [NestedEnum::END], of value
    2, with the two names "fa" and "fb"); the alternate header throws with
    the value and the range in the message. *)
Theorem enum_to_string_out_of_range_returns_empty :
  length (Info NestedEnum) = 2%nat /\
  enum_to_string NestedEnum 2 = Returns EmptyString /\
  fst (enum_strings.to_string NestedEnum_alt 2 None)
  = Throws "Invalid value 2. Valid range is 0..1"%string.
Proof. vm_compute. repeat split; reflexivity. Qed.

(* ===================================================================== *)
(** ** What the conversions return on success *)
(* ===================================================================== *)





(** C5, with more names than the underlying type has values: the value 1
    of [Overfull] is within its 257 names, the bound of the test is
    [static_cast<uint8_t>(257)], which is 1, and [enum_to_string] returns
    the empty string and not "n1"; the alternate header throws. *)
Lemma to_string_bound_narrowed :
  0 <= 1 < Z.of_nat (length (Info Overfull)) /\
  nth_error (Info Overfull) 1 = Some "n1"%string /\
  static_cast (base_type Overfull) (Z.of_nat (length (Info Overfull))) = 1 /\
  enum_to_string Overfull 1 = Returns EmptyString /\
  fst (enum_strings.to_string Overfull_alt 1 None)
  = Throws "Invalid value 1. Valid range is 0..256"%string.
Proof.
  split; [vm_compute; split; [discriminate | reflexivity]|].
  vm_compute. repeat split; reflexivity.
Qed.

(** C5. [to_string(e)] returns [table[i]] for a value [i] of [e] with
    [0 <= i < table.length], in both headers, when the number of names is
    a value of the underlying type. *)
Theorem to_string_returns_table_entry
  (B : int_type) (names : c_array string) (e : Z) (s : string) :
  Z.of_nat (length (Info (declared B names))) <= max_value B ->
  Z.of_nat (length (Info (declared B names))) <= max_value size_t ->
  0 <= e ->
  nth_error (Info (declared B names)) (Z.to_nat e) = Some s ->
  enum_to_string (declared B names) e = Returns s /\
  forall ss, enum_strings.reachable (declared_alt B (elements names)) ss ->
    fst (enum_strings.to_string (declared_alt B (elements names)) e ss)
    = Returns s.
Proof.
  intros Hfit Hsize He Hnth. split.
  - apply enum_to_string_in_table; assumption.
  - intros ss Hss. rewrite Info_declared in Hfit, Hsize, Hnth.
    rewrite (to_string_in_table _ e s ss Hss); auto.
Qed.

Lemma to_string_returns_table_entry_witness :
  enum_to_string (declared (t_signed 16) StrongEnum_names) 1
  = Returns "sb"%string /\
  fst (enum_strings.to_string
         (declared_alt (t_signed 16) (elements StrongEnum_names)) 1 None)
  = Returns "sb"%string.
Proof.
  assert (H : enum_to_string (declared (t_signed 16) StrongEnum_names) 1
              = Returns "sb"%string /\
              forall ss,
                enum_strings.reachable
                  (declared_alt (t_signed 16) (elements StrongEnum_names)) ss ->
                fst (enum_strings.to_string
                       (declared_alt (t_signed 16) (elements StrongEnum_names))
                       1 ss)
                = Returns "sb"%string).
  { apply (to_string_returns_table_entry
             (t_signed 16) StrongEnum_names 1 "sb").
    - vm_compute. discriminate.
    - vm_compute. discriminate.
    - lia.
    - reflexivity. }
  destruct H as [H1 H2].
  split; [exact H1 | apply H2; apply enum_strings.reachable_start].
Defined.

(* ===================================================================== *)
(** ** The two headers compared *)
(* ===================================================================== *)

(** C10, where the bound of the test is narrowed: at the value 1 of
    [Overfull], within its 257 names, and at [Toggle::On], within the two
    names of [Toggle], [enum.h] returns the empty string and the alternate
    header throws. *)
Lemma to_string_variants_differ :
  0 <= 1 < Z.of_nat (extent Overfull_names) /\
  enum_to_string Overfull 1 <> fst (enum_strings.to_string Overfull_alt 1 None) /\
  0 <= 1 < Z.of_nat (extent Toggle_names) /\
  enum_to_string Toggle 1 = Returns EmptyString /\
  fst (enum_strings.to_string Toggle_alt 1 None)
  = Throws "Invalid value 1. Valid range is 0..1"%string.
Proof.
  split; [vm_compute; split; [discriminate | reflexivity]|].
  split; [vm_compute; discriminate|].
  split; [simpl; lia|].
  split; reflexivity.
Qed.

(** C10. On the same declaration the two headers agree on valid inputs:
    for a value within the names both [to_string] return the same string,
    when the number of names is a value of the underlying type; for a name
    of the declaration both [from_string] return the same enumerator. *)
Theorem variants_agree_on_valid_inputs
  (B : int_type) (names : c_array string) (ss : enum_strings.static_ss) :
  enum_strings.reachable (declared_alt B (elements names)) ss ->
  (Z.of_nat (extent names) <= max_value B ->
   Z.of_nat (extent names) <= max_value size_t ->
   forall e, 0 <= e < Z.of_nat (extent names) ->
     exists s,
       enum_to_string (declared B names) e = Returns s /\
       fst (enum_strings.to_string (declared_alt B (elements names)) e ss)
       = Returns s) /\
  (forall s, In s (elements names) ->
     fst (enum_strings.from_string (declared_alt B (elements names)) s ss)
     = Returns (enum_from_string (declared B names) s)).
Proof.
  intros Hss. split.
  - intros Hfit Hsize e He.
    change (extent names) with (length (elements names)) in *.
    destruct (nth_error (elements names) (Z.to_nat e)) as [s|] eqn:Hnth;
      [| apply nth_error_None in Hnth; lia].
    exists s. split.
    + apply enum_to_string_in_table; rewrite ?Info_declared; auto; lia.
    + rewrite (to_string_in_table _ e s ss Hss); auto; lia.
  - intros s Hin. apply from_string_agree; assumption.
Qed.

Lemma variants_agree_on_valid_inputs_witness :
  (exists s,
     enum_to_string (declared (t_signed 16) StrongEnum_names) 1 = Returns s /\
     fst (enum_strings.to_string
            (declared_alt (t_signed 16) (elements StrongEnum_names)) 1 None)
     = Returns s) /\
  fst (enum_strings.from_string
         (declared_alt (t_signed 16) (elements StrongEnum_names)) "sb" None)
  = Returns (enum_from_string (declared (t_signed 16) StrongEnum_names) "sb").
Proof.
  destruct (variants_agree_on_valid_inputs
              (t_signed 16) StrongEnum_names None
              (enum_strings.reachable_start _)) as [Ha Hb].
  split.
  - apply Ha.
    + vm_compute. discriminate.
    + vm_compute. discriminate.
    + simpl. lia.
  - apply Hb. simpl. auto.
Defined.

(* ===================================================================== *)
(** ** An enumeration without a declaration *)
(* ===================================================================== *)

Lemma enum_to_string_test (E : enum_type) (e : Z) :
  enum_to_string E e
  = if index_out_of_range E e then Returns EmptyString
    else match subscript (Info E)
                 (static_cast size_t (static_cast (base_type E) e)) with
         | Some s => Returns s
         | None => Undefined
         end.
Proof. reflexivity. Qed.

(** Without a declaration [Info] is the empty table; [enum_to_string]
    takes the out-of-range branch for every value that is not negative,
    and [enum_from_string] leaves its loop at [max_size] and returns [E{}]
    for every string. *)
Lemma default_table_nonnegative (E : enum_type) :
  ENUM_STRINGS E = None ->
  Info E = [] /\
  (forall e, in_range (base_type E) e -> 0 <= e ->
     index_out_of_range E e = true /\
     enum_to_string E e = Returns EmptyString) /\
  (forall s, scan (Info E) s 0 = length (Info E) /\
             enum_from_string E s = 0).
Proof.
  intros Hnone.
  assert (Hinfo : Info E = []) by (unfold Info; rewrite Hnone; reflexivity).
  split; [exact Hinfo|]. split.
  - intros e Hrange He.
    assert (Htest : index_out_of_range E e = true).
    { unfold index_out_of_range. rewrite Hinfo. simpl length.
      rewrite (static_cast_in_range _ _ Hrange).
      rewrite static_cast_in_range
        by (apply in_range_nonneg; [lia | destruct Hrange; simpl; lia]).
      rewrite Z.geb_leb. apply Z.leb_le. simpl. exact He. }
    split; [exact Htest|].
    rewrite enum_to_string_test, Htest. reflexivity.
  - intros s.
    assert (Hscan : scan (Info E) s 0 = length (Info E))
      by (apply scan_not_found; rewrite Hinfo; simpl; tauto).
    split; [exact Hscan|].
    apply enum_from_string_not_found. rewrite Hinfo. simpl. tauto.
Qed.

(** C6. Default-table fallback: without a declaration the table is empty,
    so every [to_string] call takes the out-of-range path and every
    [from_string] call the not-found path.  [Plain] has no declaration and
    the underlying type [int16_t]: its table is empty and
    [enum_from_string] returns [E{}], but for its value -1 the test of
    [enum_to_string] is [-1 >= 0], the out-of-range branch is not taken
    and the empty array is indexed. *)
Theorem unassociated_negative_value_not_rejected :
  ENUM_STRINGS Plain = None /\
  Info Plain = [] /\
  enum_from_string Plain "p" = 0 /\
  in_range (base_type Plain) (-1) /\
  index_out_of_range Plain (-1) = false /\
  enum_to_string Plain (-1) = Undefined.
Proof.
  split; [reflexivity|]. split; [reflexivity|].
  split; [vm_compute; reflexivity|].
  split; [unfold in_range; simpl; lia|].
  split; reflexivity.
Qed.

(* ===================================================================== *)
(** ** Extraction from a source that cannot supply a token *)
(* ===================================================================== *)

(** Reading a string from such a source sets [failbit] and leaves the
    string as it was. *)
Lemma std_read_string_exhausted (ist : istream) (str : string) :
  exhausted ist ->
  failbit (fst (std_read_string ist str)) = true /\
  snd (std_read_string ist str) = str.
Proof.
  intros [Hbad | Hws]; unfold std_read_string.
  - rewrite Hbad. split; reflexivity.
  - destruct (good ist); [rewrite Hws|]; split; reflexivity.
Qed.

(** C7, at the end of the input: the alternate header's [operator>>]
    passes the empty string to [from_string], and what leaves the
    operator is the [std::invalid_argument] of [from_string] for a string
    that is no name, the failure an unrecognised token produces;
    [enum.h] assigns [E{}], here [StrongEnum::A]. *)
Lemma extraction_at_end_is_unknown_name :
  exhausted at_end /\
  snd (fst (enum_strings.operator_shr StrongEnum_alt at_end None))
  = Throws (enum_strings.not_valid_what EmptyString) /\
  snd (fst (enum_strings.operator_shr StrongEnum_alt at_end None))
  = fst (enum_strings.from_string StrongEnum_alt EmptyString None) /\
  snd (fst (enum_strings.operator_shr StrongEnum_alt (holding "sx") None))
  = Throws (enum_strings.not_valid_what "sx") /\
  snd (operator_shr StrongEnum at_end) = 0.
Proof.
  split; [right; reflexivity|].
  split; [vm_compute; reflexivity|].
  split; [vm_compute; reflexivity|].
  split; vm_compute; reflexivity.
Qed.

(** A read that finds no token ends in [setstate] with [failbit] among
    the bits, and leaves the empty string empty. *)
Lemma read_without_token (fmt : ios_fmt) (ist : istream) :
  cannot_supply fmt ist ->
  exists fmt' ist',
    failbit ist' = true /\
    exceptions_eof fmt' = exceptions_eof fmt /\
    exceptions_fail fmt' = exceptions_fail fmt /\
    exceptions_bad fmt' = exceptions_bad fmt /\
    std_read_string_with fmt ist EmptyString
    = checked fmt' ist' EmptyString.
Proof.
  assert (Hbad : good ist = false ->
    exists fmt' ist',
      failbit ist' = true /\
      exceptions_eof fmt' = exceptions_eof fmt /\
      exceptions_fail fmt' = exceptions_fail fmt /\
      exceptions_bad fmt' = exceptions_bad fmt /\
      std_read_string_with fmt ist EmptyString
      = checked fmt' ist' EmptyString).
  { intros Hg. unfold std_read_string_with. rewrite Hg.
    exists fmt,
      {| input := input ist; eofbit := eofbit ist; failbit := true;
         badbit := badbit ist |}.
    repeat split. }
  intros [Hg | Hno]; [exact (Hbad Hg)|].
  destruct (good ist) eqn:Hg; [| exact (Hbad eq_refl)].
  unfold std_read_string_with. rewrite Hg.
  destruct (skipws_flag fmt) eqn:Hs.
  - (* white space is skipped, and the input ends there *)
    rewrite Hno.
    exists fmt,
      {| input := EmptyString; eofbit := true; failbit := true;
         badbit := false |}.
    repeat split.
  - (* white space is not skipped: no character is read *)
    assert (Htake :
      (if 0 <? width fmt
       then take_token_upto (Z.to_nat (width fmt)) (input ist)
       else take_token (input ist)) = (EmptyString, input ist)).
    { destruct (Z.ltb_spec 0 (width fmt)) as [Hw | Hw].
      - destruct (Z.to_nat (width fmt)) as [| m] eqn:Hn; [lia|].
        destruct (input ist) as [| c r]; simpl in *; [reflexivity|].
        rewrite Hno. reflexivity.
      - destruct (input ist) as [| c r]; simpl in *; [reflexivity|].
        rewrite Hno. reflexivity. }
    cbv zeta. rewrite Htake.
    destruct (input ist) as [| c r].
    + exists (with_width fmt 0),
        {| input := EmptyString;
           eofbit := (width fmt <=? 0) || (Z.of_nat 0 <? width fmt);
           failbit := true; badbit := false |}.
      repeat split.
    + exists (with_width fmt 0),
        {| input := String c r; eofbit := false; failbit := true;
           badbit := false |}.
      repeat split.
Qed.

(** C7. When the source cannot supply a token, the read [is >> s] of
    [operator>>] leaves the stream with [failbit] set.  If the exception
    mask of the stream selects a bit that is then set, as it does when it
    holds [failbit], [std::ios_base::failure] leaves the operator of
    either header and no conversion is called.  Otherwise, as for a stream
    with the default mask, the operator converts the empty string:
    [enum.h] assigns [enum_from_string<E>("")], the alternate header ends
    as [from_string<E>("")] does. *)
Theorem extraction_without_token (fmt : ios_fmt) (ist : istream) :
  cannot_supply fmt ist ->
  exists fmt' ist',
    failbit ist' = true /\
    (exceptions_fail fmt = true -> raises fmt' ist' = true) /\
    (exceptions_eof fmt = false -> exceptions_fail fmt = false ->
     exceptions_bad fmt = false -> raises fmt' ist' = false) /\
    (raises fmt' ist' = true ->
     (forall E : enum_type,
        operator_shr_with E fmt ist = Failure fmt' ist') /\
     (forall (E : enum_strings.enum_type) (ss : enum_strings.static_ss),
        operator_shr_alt_with E fmt ist ss = (Failure fmt' ist', ss))) /\
    (raises fmt' ist' = false ->
     (forall E : enum_type,
        operator_shr_with E fmt ist
        = Done fmt' ist' (enum_from_string E EmptyString)) /\
     (forall (E : enum_strings.enum_type) (ss : enum_strings.static_ss),
        operator_shr_alt_with E fmt ist ss
        = (Done fmt' ist' (fst (enum_strings.from_string E EmptyString ss)),
           snd (enum_strings.from_string E EmptyString ss)))).
Proof.
  intros Hno.
  destruct (read_without_token fmt ist Hno)
    as (fmt' & ist' & Hfail & Hmeof & Hmask & Hmbad & Hread).
  exists fmt', ist'. split; [exact Hfail|]. split; [| split].
  - intros Hexc. unfold raises. rewrite Hmask, Hexc, Hfail.
    destruct (exceptions_eof fmt' && eofbit ist'); reflexivity.
  - intros He Hf Hb. unfold raises. rewrite Hmeof, Hmask, Hmbad, He, Hf, Hb.
    reflexivity.
  - unfold operator_shr_with, operator_shr_alt_with; cbv zeta.
    rewrite Hread. unfold checked.
    split; intros Hr; rewrite Hr; split; intros E; try reflexivity.
    intros ss.
    destruct (enum_strings.from_string E EmptyString ss); reflexivity.
Qed.

Lemma extraction_without_token_witness :
  exists fmt' ist',
    failbit ist' = true /\
    (exceptions_fail default_fmt = true -> raises fmt' ist' = true) /\
    (exceptions_eof default_fmt = false -> exceptions_fail default_fmt = false ->
     exceptions_bad default_fmt = false -> raises fmt' ist' = false) /\
    (raises fmt' ist' = true ->
     (forall E : enum_type,
        operator_shr_with E default_fmt at_end = Failure fmt' ist') /\
     (forall (E : enum_strings.enum_type) (ss : enum_strings.static_ss),
        operator_shr_alt_with E default_fmt at_end ss
        = (Failure fmt' ist', ss))) /\
    (raises fmt' ist' = false ->
     (forall E : enum_type,
        operator_shr_with E default_fmt at_end
        = Done fmt' ist' (enum_from_string E EmptyString)) /\
     (forall (E : enum_strings.enum_type) (ss : enum_strings.static_ss),
        operator_shr_alt_with E default_fmt at_end ss
        = (Done fmt' ist' (fst (enum_strings.from_string E EmptyString ss)),
           snd (enum_strings.from_string E EmptyString ss)))).
Proof.
  apply (extraction_without_token default_fmt at_end).
  right. reflexivity.
Defined.

(** The two ends of an extraction at the end of the input, with the
    alternate header: with [failbit] in the exception mask
    [std::ios_base::failure] leaves the operator and the static is not
    touched; with the default mask the [std::invalid_argument] of
    [from_string] for the empty string leaves it. *)
Lemma extraction_at_end_by_exception_mask :
  operator_shr_alt_with StrongEnum_alt
    {| exceptions_eof := false; exceptions_fail := true;
       exceptions_bad := false; skipws_flag := true; left_flag := false;
       width := 0; fill := " "%char |} at_end None
  = (Failure
       {| exceptions_eof := false; exceptions_fail := true;
          exceptions_bad := false; skipws_flag := true; left_flag := false;
          width := 0; fill := " "%char |}
       {| input := EmptyString; eofbit := true; failbit := true;
          badbit := false |}, None) /\
  operator_shr_alt_with StrongEnum_alt default_fmt at_end None
  = (Done default_fmt
       {| input := EmptyString; eofbit := true; failbit := true;
          badbit := false |}
       (Throws (enum_strings.not_valid_what EmptyString)),
     Some ["sa"%string; "sb"%string]).
Proof. split; vm_compute; reflexivity. Qed.

(* ===================================================================== *)
(** ** The table builder *)
(* ===================================================================== *)

(** C8, at the empty list: no array that [to_array] can be called with
    has the bound 0, and no table it returns has the length 0. *)
Lemma to_array_never_empty :
  ~ (exists a : c_array string,
       extent a = 0%nat \/ length (to_array a) = 0%nat).
Proof.
  intros [a [H | H]].
  - discriminate H.
  - rewrite to_array_elements in H. discriminate H.
Qed.

(** C8. [to_array] returns as many elements as the array it is called
    with has, at least one, and its element at [i] is [a[i]]. *)
Theorem to_array_preserves_elements (T : Type) (a : c_array T) :
  length (to_array a) = extent a /\
  (1 <= extent a)%nat /\
  forall i, (i < extent a)%nat ->
            nth_error (to_array a) i = Some (c_subscript a i).
Proof.
  rewrite to_array_elements.
  split; [reflexivity|]. split; [unfold extent; lia|].
  intros i Hi. unfold c_subscript.
  apply nth_error_nth'. exact Hi.
Qed.

Lemma to_array_preserves_elements_witness :
  length (to_array NestedEnum_names) = 2%nat /\
  nth_error (to_array NestedEnum_names) 1 = Some "fb"%string.
Proof.
  destruct (to_array_preserves_elements string NestedEnum_names)
    as (Hlen & _ & Hnth).
  split; [exact Hlen|].
  apply (Hnth 1%nat). unfold extent; simpl; lia.
Defined.

(* ===================================================================== *)
(** ** Determinism of [to_string] *)
(* ===================================================================== *)

(** For a value that is not negative a caller sees one outcome of
    [enum_to_string], the one that the value and the table give. *)
Lemma enum_to_string_determined
  (E : enum_type) (e : Z) (seen1 seen2 : outcome string) :
  0 <= static_cast (base_type E) e ->
  Z.of_nat (length (Info E)) <= max_value size_t ->
  may_observe (enum_to_string E e) seen1 ->
  may_observe (enum_to_string E e) seen2 ->
  seen1 = seen2.
Proof.
  intros He Hsize H1 H2.
  pose proof (enum_to_string_defined E e He Hsize) as Hdef.
  destruct (enum_to_string E e); simpl in *; congruence.
Qed.

(** And one outcome of [to_string] of the alternate header, whatever the
    states of the static at the two calls. *)
Lemma to_string_determined
  (E : enum_strings.enum_type) (e : Z) (ss1 ss2 : enum_strings.static_ss)
  (seen1 seen2 : outcome string) :
  enum_strings.reachable E ss1 -> enum_strings.reachable E ss2 ->
  0 <= static_cast (enum_strings.base_type E) e ->
  Z.of_nat (length (enum_strings.ENUM_STRINGS E)) <= max_value size_t ->
  may_observe (fst (enum_strings.to_string E e ss1)) seen1 ->
  may_observe (fst (enum_strings.to_string E e ss2)) seen2 ->
  seen1 = seen2.
Proof.
  intros Hs1 Hs2 He Hsize H1 H2.
  pose proof (to_string_defined E e ss1 Hs1 He Hsize) as Hdef.
  rewrite (to_string_reachable E e ss1 Hs1) in *.
  rewrite (to_string_reachable E e ss2 Hs2) in *.
  simpl fst in *.
  destruct (enum_strings.to_string_on E (enum_strings.ENUM_STRINGS E) e);
    simpl in *; congruence.
Qed.

(** C9. Determinism of [to_string]: two calls of [to_string(e)] return the
    same result, for every value [e].  For [static_cast<StrongEnum>(-1)],
    a value of [enum class StrongEnum : int16_t], the test of both headers
    is [-1 >= 2], the table is indexed outside its bounds, and the result
    of the call is not determined: a caller may see one string at one call
    and another at the next. *)
Theorem to_string_undetermined_at_negative_value :
  in_range (base_type StrongEnum) (-1) /\
  index_out_of_range StrongEnum (-1) = false /\
  enum_to_string StrongEnum (-1) = Undefined /\
  fst (enum_strings.to_string StrongEnum_alt (-1) None) = Undefined /\
  (exists seen1 seen2 : outcome string,
     may_observe (enum_to_string StrongEnum (-1)) seen1 /\
     may_observe (enum_to_string StrongEnum (-1)) seen2 /\
     seen1 <> seen2).
Proof.
  split; [unfold in_range; simpl; lia|].
  split; [reflexivity|]. split; [reflexivity|]. split; [reflexivity|].
  exists (Returns "sa"%string), (Returns "sb"%string).
  split; [exact I|]. split; [exact I|]. discriminate.
Qed.

(* ===================================================================== *)
(** ** Further properties: names and values outside the table *)
(* ===================================================================== *)

Lemma subscript_at_or_beyond_size {A : Type} (c : list A) (pos : Z) :
  Z.of_nat (length c) <= pos -> subscript c pos = None.
Proof.
  revert pos. induction c as [| x r IH]; intros pos Hpos; simpl in *.
  - reflexivity.
  - destruct (Z.eqb_spec pos 0); [lia|]. apply IH. lia.
Qed.

(** The conversion of a negative index to [size_t]. *)
Lemma static_cast_size_t_negative (z : Z) :
  - 2 ^ 63 <= z < 0 -> static_cast size_t z = z + 2 ^ 64.
Proof.
  intros Hz. unfold static_cast, size_t.
  change (2 ^ Z.pos 64) with (2 ^ 64).
  rewrite <- (Z_mod_plus_full z 1 (2 ^ 64)).
  apply Z.mod_small. lia.
Qed.

(** X1. [enum_from_string] of [enum.h] answers a string that is no entry
    of the table with [E{}], the enumerator of value 0: it has no other
    way to report an unknown name. *)
Theorem enum_from_string_unknown_is_default (E : enum_type) (s : string) :
  ~ In s (Info E) -> enum_from_string E s = 0.
Proof.
  intros Hnot. unfold enum_from_string; cbv zeta.
  (* the loop runs to [max_size], and [n == max_size] selects [E{}] *)
  rewrite (scan_not_found (Info E) s Hnot).
  rewrite Nat.eqb_refl. reflexivity.
Qed.

Lemma enum_from_string_unknown_is_default_witness :
  enum_from_string StrongEnum "sx" = 0.
Proof.
  apply (enum_from_string_unknown_is_default StrongEnum "sx").
  unfold StrongEnum. rewrite Info_declared. simpl. intuition discriminate.
Defined.

(** X2. [from_string] of the alternate header throws
    [std::invalid_argument] for a string that is no entry of the table,
    with the message "'<s>' is not a valid string representation of this
    type"; the static holds the names afterwards. *)
Theorem from_string_unknown_throws
  (E : enum_strings.enum_type) (s : string) (ss : enum_strings.static_ss) :
  enum_strings.reachable E ss ->
  ~ In s (enum_strings.ENUM_STRINGS E) ->
  enum_strings.from_string E s ss
  = (Throws ("'" ++ s ++ "' is not a valid string representation of this type")%string,
     Some (enum_strings.ENUM_STRINGS E)).
Proof.
  intros Hss Hnot. unfold enum_strings.from_string.
  rewrite (get_enum_strings_reachable E ss Hss); cbv zeta.
  (* the loop runs to [strings.size()], and the [throw] is reached *)
  rewrite (scan_not_found (enum_strings.ENUM_STRINGS E) s Hnot).
  rewrite Nat.eqb_refl. reflexivity.
Qed.

Lemma from_string_unknown_throws_witness :
  enum_strings.from_string StrongEnum_alt "sx" None
  = (Throws "'sx' is not a valid string representation of this type"%string,
     Some ["sa"%string; "sb"%string]).
Proof.
  apply (from_string_unknown_throws StrongEnum_alt "sx" None).
  - apply enum_strings.reachable_start.
  - simpl. intuition discriminate.
Defined.

(** X3. [enum_to_string] of [enum.h] returns the empty string for every
    value at or beyond the number of names, when that number is a value of
    the underlying type. *)
Theorem enum_to_string_beyond_returns_empty (E : enum_type) (e : Z) :
  Z.of_nat (length (Info E)) <= max_value (base_type E) ->
  in_range (base_type E) e ->
  Z.of_nat (length (Info E)) <= e ->
  enum_to_string E e = Returns EmptyString.
Proof.
  intros Hfit Hrange He. unfold enum_to_string; cbv zeta.
  (* neither conversion to the underlying type changes its argument *)
  rewrite (static_cast_in_range _ _ Hrange).
  rewrite static_cast_in_range by (apply in_range_nonneg; lia).
  rewrite Z.geb_leb.
  destruct (Z.leb_spec (Z.of_nat (length (Info E))) e); [reflexivity | lia].
Qed.

Lemma enum_to_string_beyond_returns_empty_witness :
  enum_to_string StrongEnum 7 = Returns EmptyString.
Proof.
  apply (enum_to_string_beyond_returns_empty StrongEnum 7).
  - vm_compute. discriminate.
  - unfold in_range; simpl; lia.
  - vm_compute. discriminate.
Defined.

(** X4. [to_string] of the alternate header throws
    [std::invalid_argument] for every value at or beyond the number [k] of
    names, with the message "Invalid value <e>. Valid range is 0..<k-1>",
    when there is a name and [k] is a value of the underlying type. *)
Theorem to_string_beyond_throws
  (E : enum_strings.enum_type) (e : Z) (ss : enum_strings.static_ss) :
  enum_strings.reachable E ss ->
  1 <= Z.of_nat (length (enum_strings.ENUM_STRINGS E)) ->
  Z.of_nat (length (enum_strings.ENUM_STRINGS E))
    <= max_value (enum_strings.base_type E) ->
  Z.of_nat (length (enum_strings.ENUM_STRINGS E)) <= max_value size_t ->
  in_range (enum_strings.base_type E) e ->
  Z.of_nat (length (enum_strings.ENUM_STRINGS E)) <= e ->
  fst (enum_strings.to_string E e ss)
  = Throws ("Invalid value " ++ std_to_string e ++ ". Valid range is 0.."
              ++ std_to_string
                   (Z.of_nat (length (enum_strings.ENUM_STRINGS E)) - 1))%string.
Proof.
  intros Hss Hone Hfit Hsize Hrange He.
  rewrite (to_string_beyond_table E e ss Hss Hfit Hrange He).
  unfold enum_strings.invalid_value_what.
  rewrite static_cast_in_range by (apply in_range_nonneg; lia).
  reflexivity.
Qed.

Lemma to_string_beyond_throws_witness :
  fst (enum_strings.to_string StrongEnum_alt 7 None)
  = Throws ("Invalid value " ++ std_to_string 7 ++ ". Valid range is 0.."
              ++ std_to_string (2 - 1))%string.
Proof.
  apply (to_string_beyond_throws StrongEnum_alt 7 None).
  - apply enum_strings.reachable_start.
  - simpl. lia.
  - vm_compute. discriminate.
  - vm_compute. discriminate.
  - unfold in_range; simpl; lia.
  - simpl. lia.
Defined.

(** X5. With no name in the macro call, [to_string] of the alternate
    header throws for every value that is not negative, and the range of
    its message is "0..18446744073709551615": [strings.size() - 1] is
    computed in [size_t]. *)
Theorem to_string_without_names_throws
  (E : enum_strings.enum_type) (e : Z) (ss : enum_strings.static_ss) :
  enum_strings.reachable E ss ->
  enum_strings.ENUM_STRINGS E = [] ->
  in_range (enum_strings.base_type E) e ->
  0 <= e ->
  fst (enum_strings.to_string E e ss)
  = Throws ("Invalid value " ++ std_to_string e
              ++ ". Valid range is 0..18446744073709551615")%string.
Proof.
  intros Hss Hnil Hrange He.
  assert (Hmax : 0 <= max_value (enum_strings.base_type E))
    by (destruct Hrange; lia).
  rewrite (to_string_beyond_table E e ss Hss); rewrite ?Hnil; simpl length;
    try assumption; try (simpl; lia).
  reflexivity.
Qed.

Lemma to_string_without_names_throws_witness :
  fst (enum_strings.to_string (declared_alt (t_signed 16) []) 0 None)
  = Throws ("Invalid value " ++ std_to_string 0
              ++ ". Valid range is 0..18446744073709551615")%string.
Proof.
  apply (to_string_without_names_throws (declared_alt (t_signed 16) []) 0 None).
  - apply enum_strings.reachable_start.
  - reflexivity.
  - unfold in_range; simpl; lia.
  - lia.
Defined.

(* ===================================================================== *)
(** ** Further properties: which calls index the table out of bounds *)
(* ===================================================================== *)

(** X6. [enum_to_string] of [enum.h] never indexes the table out of
    bounds for a value that is not negative, whatever the underlying type
    and the number of names: an index that passes the test against the
    narrowed size is below the size. *)
Theorem enum_to_string_in_bounds (E : enum_type) (e : Z) :
  in_range (base_type E) e ->
  0 <= e ->
  Z.of_nat (length (Info E)) <= max_value size_t ->
  exists s, enum_to_string E e = Returns s.
Proof.
  intros Hrange He Hsize.
  pose proof (enum_to_string_defined E e) as Hdef.
  rewrite (static_cast_in_range _ _ Hrange) in Hdef.
  specialize (Hdef He Hsize).
  unfold enum_to_string in *; cbv zeta in *.
  destruct (_ >=? _); [eauto|].
  destruct (subscript _ _) as [s|]; [eauto | congruence].
Qed.

Lemma enum_to_string_in_bounds_witness :
  exists s, enum_to_string Overfull 200 = Returns s.
Proof.
  apply (enum_to_string_in_bounds Overfull 200).
  - unfold in_range; simpl; lia.
  - lia.
  - vm_compute. discriminate.
Defined.

(** X7. [to_string] of the alternate header never indexes the vector out
    of bounds for a value that is not negative: it returns a name or
    throws. *)
Theorem to_string_in_bounds
  (E : enum_strings.enum_type) (e : Z) (ss : enum_strings.static_ss) :
  enum_strings.reachable E ss ->
  in_range (enum_strings.base_type E) e ->
  0 <= e ->
  Z.of_nat (length (enum_strings.ENUM_STRINGS E)) <= max_value size_t ->
  (exists s, fst (enum_strings.to_string E e ss) = Returns s) \/
  (exists what, fst (enum_strings.to_string E e ss) = Throws what).
Proof.
  intros Hss Hrange He Hsize.
  pose proof (to_string_defined E e ss Hss) as Hdef.
  rewrite (static_cast_in_range _ _ Hrange) in Hdef.
  specialize (Hdef He Hsize).
  destruct (fst (enum_strings.to_string E e ss)) as [s | what |];
    [left; eauto | right; eauto | congruence].
Qed.

Lemma to_string_in_bounds_witness :
  (exists s, fst (enum_strings.to_string StrongEnum_alt 1 None) = Returns s) \/
  (exists what, fst (enum_strings.to_string StrongEnum_alt 1 None) = Throws what).
Proof.
  apply (to_string_in_bounds StrongEnum_alt 1 None).
  - apply enum_strings.reachable_start.
  - unfold in_range; simpl; lia.
  - lia.
  - vm_compute. discriminate.
Defined.

(** X8. [enum_to_string] of [enum.h] has no test for a negative value:
    for every negative value of a signed underlying type (of at most 64
    bits, with a table whose size is a value of the type) the index
    passes the test and the subscript is outside the table. *)
Theorem enum_to_string_negative_out_of_bounds (E : enum_type) (e : Z) :
  in_range (base_type E) e ->
  - 2 ^ 63 <= e < 0 ->
  Z.of_nat (length (Info E)) <= max_value (base_type E) ->
  Z.of_nat (length (Info E)) <= 2 ^ 63 ->
  enum_to_string E e = Undefined.
Proof.
  intros Hrange He Hfit Hsize.
  unfold enum_to_string; cbv zeta.
  rewrite (static_cast_in_range _ _ Hrange).
  rewrite static_cast_in_range by (apply in_range_nonneg; lia).
  rewrite Z.geb_leb.
  destruct (Z.leb_spec (Z.of_nat (length (Info E))) e) as [Hle | _]; [lia|].
  rewrite static_cast_size_t_negative by lia.
  rewrite subscript_at_or_beyond_size by lia.
  reflexivity.
Qed.

Lemma enum_to_string_negative_out_of_bounds_witness :
  enum_to_string StrongEnum (-1) = Undefined.
Proof.
  apply (enum_to_string_negative_out_of_bounds StrongEnum (-1)).
  - unfold in_range; simpl; lia.
  - lia.
  - vm_compute. discriminate.
  - vm_compute. discriminate.
Defined.

(** X9. Nor has [to_string] of the alternate header: a negative value
    (of a signed underlying type of at most 64 bits, with a vector whose
    size is a value of the type) is not answered with the exception, the
    subscript is outside the vector. *)
Theorem to_string_negative_out_of_bounds
  (E : enum_strings.enum_type) (e : Z) (ss : enum_strings.static_ss) :
  enum_strings.reachable E ss ->
  in_range (enum_strings.base_type E) e ->
  - 2 ^ 63 <= e < 0 ->
  Z.of_nat (length (enum_strings.ENUM_STRINGS E))
    <= max_value (enum_strings.base_type E) ->
  Z.of_nat (length (enum_strings.ENUM_STRINGS E)) <= 2 ^ 63 ->
  fst (enum_strings.to_string E e ss) = Undefined.
Proof.
  intros Hss Hrange He Hfit Hsize.
  rewrite (to_string_reachable E e ss Hss). simpl fst.
  unfold enum_strings.to_string_on; cbv zeta.
  rewrite (static_cast_in_range _ _ Hrange).
  rewrite static_cast_in_range by (apply in_range_nonneg; lia).
  rewrite Z.geb_leb.
  destruct (Z.leb_spec (Z.of_nat (length (enum_strings.ENUM_STRINGS E))) e)
    as [Hle | _]; [lia|].
  rewrite static_cast_size_t_negative by lia.
  rewrite subscript_at_or_beyond_size by lia.
  reflexivity.
Qed.

Lemma to_string_negative_out_of_bounds_witness :
  fst (enum_strings.to_string StrongEnum_alt (-1) None) = Undefined.
Proof.
  apply (to_string_negative_out_of_bounds StrongEnum_alt (-1) None).
  - apply enum_strings.reachable_start.
  - unfold in_range; simpl; lia.
  - lia.
  - vm_compute. discriminate.
  - vm_compute. discriminate.
Defined.

(* ===================================================================== *)
(** ** Further properties: the two conversions composed *)
(* ===================================================================== *)

Lemma max_value_nonneg (T : int_type) : 0 <= max_value T.
Proof.
  destruct T as [| w | w]; unfold max_value; lia.
Qed.

(** The counter at which the loop stops for an entry of the table. *)
Lemma scan_of_entry (l : list string) (s : string) :
  In s l ->
  nth_error l (scan l s 0) = Some s /\
  forall j, nth_error l j = Some s -> (scan l s 0 <= j)%nat.
Proof.
  intros Hin.
  pose proof (scan_found l s Hin) as Hlt.
  destruct (scan_spec l s 0 ltac:(lia)) as (_ & Hfound & Hpassed).
  split.
  - rewrite (nth_error_nth' l EmptyString Hlt). f_equal. apply Hfound, Hlt.
  - intros j Hj.
    destruct (Nat.le_gt_cases (scan l s 0) j) as [Hle | Hgt]; [exact Hle|].
    exfalso. apply (Hpassed j); [lia|]. apply nth_error_nth. exact Hj.
Qed.

(** X10. The round trip [from_string<E>(to_string(e)) == e] holds in both
    headers for every value within the names, when the names are pairwise
    distinct and their number is a value of the underlying type. *)
Theorem round_trip_within_underlying_type
  (B : int_type) (names : c_array string) (e : Z) :
  NoDup (elements names) ->
  Z.of_nat (extent names) <= max_value B ->
  Z.of_nat (extent names) <= max_value size_t ->
  0 <= e < Z.of_nat (extent names) ->
  round_trip (declared B names) e = Returns e /\
  round_trip_alt (declared_alt B (elements names)) e None = Returns e.
Proof.
  intros Hnd Hfit Hsize He.
  destruct (round_trip_when_count_fits B names e Hnd Hfit Hsize He) as [H1 H2].
  split; [exact H1 | apply H2, enum_strings.reachable_start].
Qed.

Lemma round_trip_within_underlying_type_witness :
  round_trip (declared (t_signed 16) StrongEnum_names) 1 = Returns 1 /\
  round_trip_alt (declared_alt (t_signed 16) (elements StrongEnum_names)) 1 None
  = Returns 1.
Proof.
  apply (round_trip_within_underlying_type (t_signed 16) StrongEnum_names 1).
  - repeat constructor; simpl; intuition discriminate.
  - vm_compute. discriminate.
  - vm_compute. discriminate.
  - simpl. lia.
Defined.

Lemma enum_to_string_of_entry (E : enum_type) (s : string) :
  In s (Info E) ->
  Z.of_nat (length (Info E)) <= max_value (base_type E) ->
  Z.of_nat (length (Info E)) <= max_value size_t ->
  enum_to_string E (enum_from_string E s) = Returns s.
Proof.
  intros Hin Hfit Hsize.
  destruct (scan_of_entry _ _ Hin) as [Hnth Hmin].
  pose proof (scan_found _ _ Hin) as Hlt.
  rewrite (enum_from_string_at_first_match E s (scan (Info E) s 0)).
  - apply enum_to_string_in_table; try assumption; try lia.
    rewrite Nat2Z.id. exact Hnth.
  - exact Hnth.
  - intros i Hi Hi'. specialize (Hmin i Hi'). lia.
  - apply in_range_nonneg; lia.
Qed.

(** X11. The other round trip: for every name [s] of the table,
    [enum_to_string(enum_from_string<E>(s))] is [s], also when names
    repeat, provided the number of names is a value of the underlying
    type. *)
Theorem enum_to_string_of_enum_from_string (E : enum_type) (s : string) :
  In s (Info E) ->
  Z.of_nat (length (Info E)) <= max_value (base_type E) ->
  Z.of_nat (length (Info E)) <= max_value size_t ->
  enum_to_string E (enum_from_string E s) = Returns s.
Proof.
  intros Hin Hfit Hsize.
  destruct (scan_of_entry _ _ Hin) as [Hnth Hmin].
  pose proof (scan_found _ _ Hin) as Hlt.
  (* [enum_from_string] returns the index at which the loop stops *)
  rewrite (enum_from_string_at_first_match E s (scan (Info E) s 0)).
  - apply enum_to_string_in_table; try assumption; try lia.
    rewrite Nat2Z.id. exact Hnth.
  - exact Hnth.
  - intros i Hi Hi'. specialize (Hmin i Hi'). lia.
  - apply in_range_nonneg; lia.
Qed.

Lemma enum_to_string_of_enum_from_string_witness :
  enum_to_string NestedEnum (enum_from_string NestedEnum "fb")
  = Returns "fb"%string.
Proof.
  apply (enum_to_string_of_enum_from_string NestedEnum "fb").
  - unfold NestedEnum. rewrite Info_declared. simpl. auto.
  - vm_compute. discriminate.
  - vm_compute. discriminate.
Defined.

(** X12. Names that repeat collapse, when the number of names is a value
    of the underlying type: if the name of the value [e] also stands at an
    earlier index [j] of the table, the round trip from [e] ends at an
    index that is at most [j], not at [e]. *)
Theorem round_trip_of_repeated_name
  (E : enum_type) (e : Z) (s : string) (j : nat) :
  Z.of_nat (length (Info E)) <= max_value (base_type E) ->
  Z.of_nat (length (Info E)) <= max_value size_t ->
  0 <= e ->
  nth_error (Info E) (Z.to_nat e) = Some s ->
  nth_error (Info E) j = Some s ->
  Z.of_nat j < e ->
  exists r, round_trip E e = Returns r /\ 0 <= r <= Z.of_nat j /\ r <> e.
Proof.
  intros Hfit Hsize He Hnth Hj Hlt.
  assert (Hin : In s (Info E)) by (eapply nth_error_In; exact Hj).
  destruct (scan_of_entry _ _ Hin) as [Hfirst Hmin].
  pose proof (scan_found _ _ Hin) as Hbelow.
  pose proof (Hmin j Hj) as Hle.
  exists (Z.of_nat (scan (Info E) s 0)).
  split; [| lia].
  unfold round_trip.
  rewrite (enum_to_string_in_table E e s Hfit Hsize He Hnth).
  f_equal.
  apply enum_from_string_at_first_match.
  - exact Hfirst.
  - intros i Hi Hi'. specialize (Hmin i Hi'). lia.
  - apply in_range_nonneg; lia.
Qed.

Lemma round_trip_of_repeated_name_witness :
  exists r,
    round_trip (declared (t_signed 32)
                  {| first_elem := "a"%string; more_elems := ["a"%string] |}) 1
    = Returns r /\ 0 <= r <= Z.of_nat 0 /\ r <> 1.
Proof.
  apply (round_trip_of_repeated_name
           (declared (t_signed 32)
              {| first_elem := "a"%string; more_elems := ["a"%string] |})
           1 "a" 0).
  - vm_compute. discriminate.
  - vm_compute. discriminate.
  - lia.
  - reflexivity.
  - reflexivity.
  - simpl. lia.
Defined.

(** X13. With [enum.h] an unknown name cannot be told from the first
    name of the declaration: [enum_from_string] returns the same
    enumerator for both. *)
Theorem unknown_name_reads_as_first_name
  (B : int_type) (names : c_array string) (s : string) :
  ~ In s (elements names) ->
  enum_from_string (declared B names) s
  = enum_from_string (declared B names) (first_elem names).
Proof.
  intros Hnot.
  rewrite (enum_from_string_not_found (declared B names) s)
    by (rewrite Info_declared; exact Hnot).
  symmetry.
  apply (enum_from_string_at_first_match (declared B names) _ 0).
  - rewrite Info_declared. reflexivity.
  - intros i Hi. lia.
  - apply in_range_nonneg; [lia | apply max_value_nonneg].
Qed.

Lemma unknown_name_reads_as_first_name_witness :
  enum_from_string (declared (t_signed 16) StrongEnum_names) "sx"
  = enum_from_string (declared (t_signed 16) StrongEnum_names) "sa".
Proof.
  apply (unknown_name_reads_as_first_name (t_signed 16) StrongEnum_names "sx").
  simpl. intuition discriminate.
Defined.

(* ===================================================================== *)
(** ** Further properties: the stream operators *)
(* ===================================================================== *)

Lemma skipws_all_space (ws s : string) :
  all_space ws = true -> skipws (ws ++ s) = skipws s.
Proof.
  induction ws as [| c ws IH]; simpl; intros H; [reflexivity|].
  apply andb_prop in H. destruct H as [Hc Hws].
  rewrite Hc. apply IH, Hws.
Qed.

Lemma skipws_token (tok rest : string) :
  is_token tok = true -> skipws (tok ++ rest) = (tok ++ rest)%string.
Proof.
  destruct tok as [| c tok]; simpl; intros H; [discriminate|].
  apply andb_prop in H. destruct H as [Hc _].
  apply negb_true_iff in Hc. rewrite Hc. reflexivity.
Qed.

Lemma take_token_app (tok rest : string) :
  no_space tok = true -> ends_token rest = true ->
  take_token (tok ++ rest) = (tok, rest).
Proof.
  intros Htok Hrest. induction tok as [| c tok IH]; simpl in *.
  - destruct rest as [| c r]; simpl in *; [reflexivity|].
    rewrite Hrest. reflexivity.
  - apply andb_prop in Htok. destruct Htok as [Hc Htok].
    apply negb_true_iff in Hc. rewrite Hc, (IH Htok). reflexivity.
Qed.

(** Reading a string from a good stream takes the first token. *)
Lemma std_read_string_token (ist : istream) (ws tok rest str : string) :
  good ist = true ->
  input ist = (ws ++ tok ++ rest)%string ->
  all_space ws = true -> is_token tok = true -> ends_token rest = true ->
  std_read_string ist str = (after_token rest, tok).
Proof.
  intros Hgood Hinput Hws Htok Hrest.
  unfold std_read_string.
  rewrite Hgood, Hinput, (skipws_all_space _ _ Hws), (skipws_token _ _ Htok).
  assert (Hns : no_space tok = true) by (destruct tok; [discriminate | exact Htok]).
  pose proof (take_token_app tok rest Hns Hrest) as Htake.
  destruct tok as [| c tok]; [discriminate|].
  change (String c tok ++ rest)%string with (String c (tok ++ rest)) in *.
  cbv iota beta. rewrite Htake. reflexivity.
Qed.

Lemma append_empty_r (s : string) : (s ++ "")%string = s.
Proof. induction s as [| c s IH]; simpl; [reflexivity | rewrite IH; reflexivity]. Qed.

Lemma good_bits (ist : istream) :
  good ist = true ->
  ist = {| input := input ist; eofbit := false; failbit := false;
           badbit := false |}.
Proof.
  destruct ist as [i [|] [|] [|]]; unfold good; simpl; intros H;
    try discriminate; reflexivity.
Qed.

(** The stream operators of the default configuration are those of every
    configuration at [default_fmt]. *)
Lemma skipws_head (s r : string) (c : ascii) :
  skipws s = String c r -> isspace c = false.
Proof.
  induction s as [| d s IH]; simpl; [discriminate|].
  destruct (isspace d) eqn:Hd; [exact IH|].
  intros H. injection H as -> _. exact Hd.
Qed.

Lemma std_read_string_with_default (ist : istream) (str : string) :
  std_read_string_with default_fmt ist str
  = Done default_fmt (fst (std_read_string ist str))
      (snd (std_read_string ist str)).
Proof.
  unfold std_read_string_with, std_read_string.
  destruct (good ist); [| reflexivity].
  simpl skipws_flag. cbv iota.
  destruct (skipws (input ist)) as [| c r] eqn:Hskip; [reflexivity|].
  pose proof (skipws_head _ _ _ Hskip) as Hc.
  simpl. rewrite Hc.
  destruct (take_token r) as [tok rest]. simpl.
  destruct rest; reflexivity.
Qed.

Lemma operator_shr_with_default (E : enum_type) (ist : istream) :
  operator_shr_with E default_fmt ist
  = Done default_fmt (fst (operator_shr E ist)) (snd (operator_shr E ist)).
Proof.
  unfold operator_shr_with, operator_shr; cbv zeta.
  rewrite std_read_string_with_default.
  destruct (std_read_string ist EmptyString). reflexivity.
Qed.

Lemma std_write_string_with_default (os : istream) (str : string) :
  std_write_string_with default_fmt os str
  = Done default_fmt (std_write_string os str) tt.
Proof.
  unfold std_write_string_with, std_write_string.
  destruct (good os); [| destruct (badbit os)]; try reflexivity.
  unfold padded. simpl width.
  destruct (Z.ltb_spec (Z.of_nat (String.length str)) 0); [lia | reflexivity].
Qed.

Lemma take_token_upto_app (n : nat) (tok rest : string) :
  (String.length tok < n)%nat ->
  no_space tok = true -> ends_token rest = true ->
  take_token_upto n (tok ++ rest) = (tok, rest).
Proof.
  revert n. induction tok as [| c tok IH]; intros n Hn Htok Hrest;
    (destruct n as [| m]; [simpl in Hn; lia|]); simpl in *.
  - destruct rest as [| c r]; simpl in *; [reflexivity|].
    rewrite Hrest. reflexivity.
  - apply andb_prop in Htok. destruct Htok as [Hc Htok].
    apply negb_true_iff in Hc. rewrite Hc, (IH m); auto. lia.
Qed.

(** Reading a string from a good stream takes the first token, when white
    space is skipped or there is none before the token, and the width is
    not set or exceeds the length of the token. *)
Lemma std_read_string_with_token
  (fmt : ios_fmt) (ist : istream) (ws tok rest str : string) :
  good ist = true ->
  input ist = (ws ++ tok ++ rest)%string ->
  all_space ws = true -> is_token tok = true -> ends_token rest = true ->
  skipws_flag fmt = true \/ ws = EmptyString ->
  width fmt <= 0 \/ Z.of_nat (String.length tok) < width fmt ->
  std_read_string_with fmt ist str
  = checked (with_width fmt 0) (after_token rest) tok.
Proof.
  intros Hgood Hinput Hws Htok Hrest Hskip Hwidth.
  assert (Hns : no_space tok = true)
    by (destruct tok; [discriminate | exact Htok]).
  assert (Hinp : (if skipws_flag fmt then skipws (input ist) else input ist)
                 = (tok ++ rest)%string).
  { rewrite Hinput. destruct (skipws_flag fmt).
    - rewrite (skipws_all_space _ _ Hws). apply skipws_token, Htok.
    - destruct Hskip as [Hs | ->]; [discriminate | reflexivity]. }
  assert (Htake :
    (if 0 <? width fmt
     then take_token_upto (Z.to_nat (width fmt)) (tok ++ rest)
     else take_token (tok ++ rest)) = (tok, rest)).
  { destruct (Z.ltb_spec 0 (width fmt)) as [Hw | Hw].
    - apply take_token_upto_app; try assumption. lia.
    - apply take_token_app; assumption. }
  assert (Heof : ((width fmt <=? 0) || (Z.of_nat (String.length tok) <? width fmt))
                 = true).
  { apply orb_true_iff. destruct Hwidth as [Hw | Hw];
      [left; apply Z.leb_le | right; apply Z.ltb_lt]; exact Hw. }
  unfold std_read_string_with. rewrite Hgood. cbv zeta. rewrite Hinp.
  destruct tok as [| c tok]; [discriminate|].
  change (String c tok ++ rest)%string with (String c (tok ++ rest)) in *.
  clear Hinp Hskip.
  destruct (skipws_flag fmt); cbv iota; rewrite Htake, Heof;
    unfold after_token; destruct rest; reflexivity.
Qed.

(** X14. [operator>>] of [enum.h] on a good stream reads exactly one
    token, when [skipws] is set or no white space stands before the token,
    and [width()] is not positive or exceeds the length of the token: it
    assigns [enum_from_string<E>(token)], leaves in the stream what
    follows the token, resets the width, and sets [eofbit] only when the
    token ended the input; in that case, and if the exception mask holds
    [eofbit], [std::ios_base::failure] leaves the operator instead. *)
Theorem operator_shr_with_reads_one_token
  (E : enum_type) (fmt : ios_fmt) (ist : istream) (ws tok rest : string) :
  good ist = true ->
  input ist = (ws ++ tok ++ rest)%string ->
  all_space ws = true -> is_token tok = true -> ends_token rest = true ->
  skipws_flag fmt = true \/ ws = EmptyString ->
  width fmt <= 0 \/ Z.of_nat (String.length tok) < width fmt ->
  operator_shr_with E fmt ist
  = match rest with
    | EmptyString =>
        if exceptions_eof fmt
        then Failure (with_width fmt 0) (after_token rest)
        else Done (with_width fmt 0) (after_token rest)
               (enum_from_string E tok)
    | String _ _ =>
        Done (with_width fmt 0) (after_token rest) (enum_from_string E tok)
    end.
Proof.
  intros Hgood Hinput Hws Htok Hrest Hskip Hwidth.
  unfold operator_shr_with; cbv zeta.
  rewrite (std_read_string_with_token fmt ist ws tok rest _
             Hgood Hinput Hws Htok Hrest Hskip Hwidth).
  unfold checked, raises, after_token, with_width.
  destruct rest; simpl;
    destruct (exceptions_eof fmt), (exceptions_fail fmt), (exceptions_bad fmt);
    reflexivity.
Qed.

Lemma operator_shr_with_reads_one_token_witness :
  operator_shr_with StrongEnum default_fmt (holding "  sb sa")
  = Done (with_width default_fmt 0) (after_token " sa")
      (enum_from_string StrongEnum "sb").
Proof.
  apply (operator_shr_with_reads_one_token
           StrongEnum default_fmt (holding "  sb sa") "  " "sb" " sa");
    try reflexivity.
  - left. reflexivity.
  - left. simpl. lia.
Defined.





Lemma padded_empty (fmt : ios_fmt) :
  padded fmt EmptyString = fill_chars (Z.to_nat (width fmt)) (fill fmt).
Proof.
  unfold padded. simpl String.length. change (Z.of_nat 0) with 0.
  rewrite Z.sub_0_r.
  destruct (Z.ltb_spec 0 (width fmt)) as [Hw | Hw].
  - destruct (left_flag fmt); [reflexivity | apply append_empty_r].
  - replace (Z.to_nat (width fmt)) with 0%nat by lia. reflexivity.
Qed.

(** X17. [operator<<] of [enum.h] writes no character of a name for a
    value at or beyond the number of names: a good stream gets [width()]
    fill characters, none when the width is not positive, and its width is
    reset to 0. *)
Theorem operator_shl_with_beyond_writes_padding
  (E : enum_type) (fmt : ios_fmt) (os : istream) (e : Z) :
  good os = true ->
  Z.of_nat (length (Info E)) <= max_value (base_type E) ->
  in_range (base_type E) e ->
  Z.of_nat (length (Info E)) <= e ->
  operator_shl_with E fmt os e
  = Returns
      (Done (with_width fmt 0)
         {| input := (input os
                      ++ fill_chars (Z.to_nat (width fmt)) (fill fmt))%string;
            eofbit := false; failbit := false; badbit := false |} tt) /\
  (width fmt <= 0 ->
   operator_shl_with E fmt os e = Returns (Done (with_width fmt 0) os tt)).
Proof.
  intros Hgood Hfit Hrange He.
  assert (Hshl : operator_shl_with E fmt os e
    = Returns
        (Done (with_width fmt 0)
           {| input := (input os
                        ++ fill_chars (Z.to_nat (width fmt)) (fill fmt))%string;
              eofbit := false; failbit := false; badbit := false |} tt)).
  { unfold operator_shl_with.
    rewrite (enum_to_string_beyond_table E e Hfit Hrange He).
    unfold std_write_string_with. rewrite Hgood, padded_empty. reflexivity. }
  split; [exact Hshl|].
  intros Hw. rewrite Hshl.
  replace (Z.to_nat (width fmt)) with 0%nat by lia.
  simpl fill_chars. rewrite append_empty_r.
  do 2 f_equal. symmetry. apply good_bits, Hgood.
Qed.

Lemma operator_shl_with_beyond_writes_padding_witness :
  operator_shl_with NestedEnum (with_width default_fmt 3) (holding "x") 2
  = Returns
      (Done (with_width (with_width default_fmt 3) 0)
         {| input := ("x" ++ fill_chars (Z.to_nat 3) " "%char)%string;
            eofbit := false; failbit := false; badbit := false |} tt).
Proof.
  apply (operator_shl_with_beyond_writes_padding
           NestedEnum (with_width default_fmt 3) (holding "x") 2).
  - reflexivity.
  - vm_compute. discriminate.
  - unfold in_range; simpl; lia.
  - vm_compute. discriminate.
Defined.

(* ===================================================================== *)
(** ** Further properties: the test program *)
(* ===================================================================== *)

Section Tests.

Variable B : int_type.
Variable names : c_array string.

Hypothesis names_distinct : NoDup (elements names).
Hypothesis count_fits : Z.of_nat (extent names) <= max_value B.
Hypothesis size_fits : Z.of_nat (extent names) <= max_value size_t.

Lemma enum_from_string_of_name (e : Z) (s : string) :
  0 <= e ->
  nth_error (elements names) (Z.to_nat e) = Some s ->
  enum_from_string (declared B names) s = e.
Proof.
  intros He Hnth.
  assert (Hlt : (Z.to_nat e < length (elements names))%nat)
    by (apply nth_error_Some; congruence).
  pose proof count_fits as Hfit.
  change (extent names) with (length (elements names)) in Hfit.
  rewrite (enum_from_string_at_first_match (declared B names) s (Z.to_nat e)).
  - lia.
  - rewrite Info_declared. exact Hnth.
  - rewrite Info_declared. apply NoDup_first_match; assumption.
  - change (in_range B (Z.of_nat (Z.to_nat e))).
    apply in_range_nonneg; lia.
Qed.

Lemma operator_shl_fresh (e : Z) (s : string) :
  0 <= e ->
  nth_error (elements names) (Z.to_nat e) = Some s ->
  operator_shl (declared B names) (holding EmptyString) e = Returns (holding s).
Proof.
  intros He Hnth. unfold operator_shl.
  rewrite (enum_to_string_in_table (declared B names) e s)
    by (rewrite ?Info_declared; assumption).
  reflexivity.
Qed.

End Tests.

(** X18. [test_to_from_string(e, s)] passes both its assertions when [s]
    is the name at the value [e], the names are pairwise distinct and
    their number is a value of the underlying type. *)
Theorem test_to_from_string_passes
  (B : int_type) (names : c_array string) (e : Z) (s : string) :
  NoDup (elements names) ->
  Z.of_nat (extent names) <= max_value B ->
  Z.of_nat (extent names) <= max_value size_t ->
  0 <= e ->
  nth_error (elements names) (Z.to_nat e) = Some s ->
  test_to_from_string (declared B names) e s = Passed.
Proof.
  intros Hnd Hfit Hsize He Hnth. unfold test_to_from_string.
  (* first assertion: [enum_to_string(e)] is [s] *)
  rewrite (enum_to_string_in_table (declared B names) e s)
    by (rewrite ?Info_declared; assumption).
  rewrite String.eqb_refl.
  (* second assertion: [enum_from_string<E>(s)] is [e] *)
  rewrite (enum_from_string_of_name B names Hnd Hfit e s He Hnth).
  rewrite Z.eqb_refl. reflexivity.
Qed.

Lemma test_to_from_string_passes_witness :
  test_to_from_string (declared (t_signed 16) StrongEnum_names) 1 "sb" = Passed.
Proof.
  apply (test_to_from_string_passes (t_signed 16) StrongEnum_names 1 "sb").
  - repeat constructor; simpl; intuition discriminate.
  - vm_compute. discriminate.
  - vm_compute. discriminate.
  - lia.
  - reflexivity.
Defined.

(** X19. Stream round trip: [test_stream_io(e)], which writes [e] to a
    fresh [std::stringstream] with [operator<<] and reads it back with
    [operator>>], passes its assertion when the name of [e] is a token
    (not empty, without white space), the names are pairwise distinct and
    their number is a value of the underlying type. *)
Theorem test_stream_io_passes
  (B : int_type) (names : c_array string) (e : Z) (s : string) :
  NoDup (elements names) ->
  Z.of_nat (extent names) <= max_value B ->
  Z.of_nat (extent names) <= max_value size_t ->
  0 <= e ->
  nth_error (elements names) (Z.to_nat e) = Some s ->
  is_token s = true ->
  test_stream_io (declared B names) e = Passed.
Proof.
  intros Hnd Hfit Hsize He Hnth Htok. unfold test_stream_io; cbv zeta.
  (* [ss << e] leaves the name in the stream *)
  rewrite (operator_shl_fresh B names Hfit Hsize e s He Hnth).
  (* [ss >> v] takes the name as its token *)
  unfold operator_shr.
  rewrite (std_read_string_token (holding s) EmptyString s EmptyString);
    try reflexivity; try assumption;
    [| simpl; rewrite append_empty_r; reflexivity].
  rewrite (enum_from_string_of_name B names Hnd Hfit e s He Hnth).
  rewrite Z.eqb_refl. reflexivity.
Qed.

Lemma test_stream_io_passes_witness :
  test_stream_io (declared (t_signed 16) StrongEnum_names) 1 = Passed.
Proof.
  apply (test_stream_io_passes (t_signed 16) StrongEnum_names 1 "sb").
  - repeat constructor; simpl; intuition discriminate.
  - vm_compute. discriminate.
  - vm_compute. discriminate.
  - lia.
  - reflexivity.
  - reflexivity.
Defined.

(** X21. Stream round trip with the alternate header: [operator<<] on a
    fresh stream writes the name of [e] and nothing else, and
    [operator>>] on that stream assigns [e] again, under the conditions of
    the round trip and for a name that is a token. *)
Theorem stream_round_trip_alt
  (B : int_type) (names : list string) (e : Z) (s : string) :
  NoDup names ->
  Z.of_nat (length names) <= max_value B ->
  Z.of_nat (length names) <= max_value size_t ->
  0 <= e ->
  nth_error names (Z.to_nat e) = Some s ->
  is_token s = true ->
  operator_shl_alt (declared_alt B names) (holding EmptyString) e None
  = (Returns (holding s), Some names) /\
  enum_strings.operator_shr (declared_alt B names) (holding s) (Some names)
  = ((after_token EmptyString, Returns e), Some names).
Proof.
  intros Hnd Hfit Hsize He Hnth Htok.
  assert (Hlt : (Z.to_nat e < length names)%nat)
    by (apply nth_error_Some; congruence).
  split.
  - unfold operator_shl_alt.
    rewrite (to_string_in_table (declared_alt B names) e s None
               (enum_strings.reachable_start _) Hfit Hsize He Hnth).
    reflexivity.
  - unfold enum_strings.operator_shr.
    rewrite (std_read_string_token (holding s) EmptyString s EmptyString);
      try reflexivity; try assumption;
      [| simpl; rewrite append_empty_r; reflexivity].
    rewrite (from_string_at_first_match (declared_alt B names) s (Z.to_nat e)
               (Some names) (reachable_constructed (declared_alt B names)) Hnth).
    + simpl. do 3 f_equal. lia.
    + apply NoDup_first_match; assumption.
    + apply in_range_nonneg; simpl; lia.
Qed.

Lemma stream_round_trip_alt_witness :
  operator_shl_alt (declared_alt (t_signed 16) ["sa"%string; "sb"%string])
    (holding EmptyString) 1 None
  = (Returns (holding "sb"), Some ["sa"%string; "sb"%string]) /\
  enum_strings.operator_shr
    (declared_alt (t_signed 16) ["sa"%string; "sb"%string])
    (holding "sb") (Some ["sa"%string; "sb"%string])
  = ((after_token EmptyString, Returns 1), Some ["sa"%string; "sb"%string]).
Proof.
  apply (stream_round_trip_alt
           (t_signed 16) ["sa"%string; "sb"%string] 1 "sb").
  - repeat constructor; simpl; intuition discriminate.
  - vm_compute. discriminate.
  - vm_compute. discriminate.
  - lia.
  - reflexivity.
  - reflexivity.
Defined.

(* ===================================================================== *)
(** ** Further properties: the table behind the conversions *)
(* ===================================================================== *)

(** X22. The static of [_get_enum_strings] is constructed once and never
    changed: in every state that calls can produce, a call returns the
    names of the macro call, in their order, and leaves the static holding
    them. *)
Theorem get_enum_strings_returns_names
  (E : enum_strings.enum_type) (ss : enum_strings.static_ss) :
  enum_strings.reachable E ss ->
  enum_strings._get_enum_strings E ss
  = (enum_strings.ENUM_STRINGS E, Some (enum_strings.ENUM_STRINGS E)) /\
  enum_strings.reachable E (snd (enum_strings._get_enum_strings E ss)).
Proof.
  intros Hss. split.
  - apply get_enum_strings_reachable, Hss.
  - apply enum_strings.reachable_call, Hss.
Qed.

Lemma get_enum_strings_returns_names_witness :
  enum_strings._get_enum_strings StrongEnum_alt None
  = (["sa"%string; "sb"%string], Some ["sa"%string; "sb"%string]).
Proof.
  apply (get_enum_strings_returns_names StrongEnum_alt None).
  apply enum_strings.reachable_start.
Defined.

(** X23. What [enum_from_string] of [enum.h] returns can always be
    converted back: for a declared enumeration whose number of names is a
    value of the underlying type, and for every string [s], known or not,
    [enum_to_string(enum_from_string<E>(s))] is a name of the table. *)
Theorem enum_from_string_result_has_name
  (B : int_type) (names : c_array string) (s : string) :
  Z.of_nat (extent names) <= max_value B ->
  Z.of_nat (extent names) <= max_value size_t ->
  exists s',
    In s' (elements names) /\
    enum_to_string (declared B names)
      (enum_from_string (declared B names) s) = Returns s'.
Proof.
  intros Hfit Hsize.
  change (extent names) with (length (elements names)) in *.
  destruct (in_dec string_dec s (elements names)) as [Hin | Hnot].
  - exists s. split; [exact Hin|].
    apply enum_to_string_of_entry; rewrite ?Info_declared; assumption.
  - exists (first_elem names). split; [left; reflexivity|].
    rewrite (enum_from_string_not_found (declared B names) s)
      by (rewrite Info_declared; exact Hnot).
    apply enum_to_string_in_table; rewrite ?Info_declared;
      try assumption; try lia.
    reflexivity.
Qed.

Lemma enum_from_string_result_has_name_witness :
  exists s',
    In s' (elements StrongEnum_names) /\
    enum_to_string (declared (t_signed 16) StrongEnum_names)
      (enum_from_string (declared (t_signed 16) StrongEnum_names) "sx")
    = Returns s'.
Proof.
  apply (enum_from_string_result_has_name (t_signed 16) StrongEnum_names "sx").
  - vm_compute. discriminate.
  - vm_compute. discriminate.
Defined.
